(** * Grid search over a discrete hyperparameter space

    A shallow embedding of [grid_search.py] (the batch suggester
    [grid_search_next_runs] with its helpers [list_to_tuple] and
    [tuple_to_list]) and of [sweeps/grid_search.py] (the single-suggestion
    [grid_search_next_run]), followed by the properties of the two
    functions.

    Python values are an inductive type, dictionaries are finite maps,
    raised exceptions are the [Raise] branch of a result type, and the
    two sources of unspecified order (iteration over a set, and
    [random.shuffle]) are functions that return a permutation. *)

From Stdlib Require Import ZArith.
From stdpp Require Import gmap strings list fin_maps.

Open Scope Z_scope.

(** ** Python values *)

(** The values that can appear as a candidate or as an observed
    parameter value: [None], integers, strings, lists and tuples.  On
    these Python's [==] is structural equality, and a list never equals a
    tuple. *)
#[warnings="-register-all"]
Inductive pyval : Type :=
  | VNone
  | VInt (z : Z)
  | VStr (s : string)
  | VList (items : list pyval)
  | VTuple (items : list pyval).

(** Induction that reaches the elements of the nested sequences. *)
Section pyval_rect_nested.
Variable P : pyval → Prop.
Hypothesis HNone : P VNone.
Hypothesis HInt : ∀ z, P (VInt z).
Hypothesis HStr : ∀ s, P (VStr s).
Hypothesis HList : ∀ items, Forall P items → P (VList items).
Hypothesis HTuple : ∀ items, Forall P items → P (VTuple items).

Fixpoint pyval_ind_nested (v : pyval) : P v :=
  let fix all (l : list pyval) : Forall P l :=
    match l with
    | [] => @Stdlib.Lists.List.Forall_nil pyval P
    | x :: l' =>
        @Stdlib.Lists.List.Forall_cons pyval P x l' (pyval_ind_nested x) (all l')
    end in
  match v with
  | VNone => HNone
  | VInt z => HInt z
  | VStr s => HStr s
  | VList items => HList items (all items)
  | VTuple items => HTuple items (all items)
  end.
End pyval_rect_nested.

Definition pyval_eq_dec : ∀ x y : pyval, {x = y} + {x ≠ y}.
Proof.
  fix IH 1. intros x y.
  decide equality;
    first [ apply Z.eq_dec | apply String.string_dec
          | apply (Stdlib.Lists.List.list_eq_dec IH) ].
Defined.

#[global] Instance pyval_eq_decision : EqDecision pyval := pyval_eq_dec.

(** [list_to_tuple]: a list becomes the tuple of its converted elements;
    anything else, a tuple included, is returned as it is. *)
Fixpoint list_to_tuple (obj : pyval) : pyval :=
  match obj with
  | VList items => VTuple (list_to_tuple <$> items)
  | _ => obj
  end.

(** [tuple_to_list]: a tuple becomes the list of its converted elements;
    anything else, a list included, is returned as it is. *)
Fixpoint tuple_to_list (obj : pyval) : pyval :=
  match obj with
  | VTuple items => VList (tuple_to_list <$> items)
  | _ => obj
  end.

(** [hash(obj)] succeeds: lists are unhashable, a tuple is hashable when
    all its elements are. *)
Fixpoint hashable (obj : pyval) : bool :=
  match obj with
  | VList _ => false
  | VTuple items => forallb hashable items
  | _ => true
  end.

(** The value holds no tuple, at any depth. *)
Fixpoint tuple_free (obj : pyval) : bool :=
  match obj with
  | VTuple _ => false
  | VList items => forallb tuple_free items
  | _ => true
  end.

(** Every list replaced by a tuple, at any depth: the form in which a
    list-shaped and a tuple-shaped value with equal elements coincide. *)
Fixpoint as_tuples (obj : pyval) : pyval :=
  match obj with
  | VList items | VTuple items => VTuple (as_tuples <$> items)
  | _ => obj
  end.

(** Every tuple replaced by a list, at any depth. *)
Fixpoint as_lists (obj : pyval) : pyval :=
  match obj with
  | VList items | VTuple items => VList (as_lists <$> items)
  | _ => obj
  end.

(** Iterating a value: the elements of a list or tuple. *)
Definition elements_of (obj : pyval) : list pyval :=
  match obj with
  | VList items | VTuple items => items
  | _ => []
  end.

(** A tuple of canonical values: one point of the grid, or the projection
    of one observed run. *)
Abbreviation point := (list pyval).

(** ** Exceptions *)

Inductive exn : Type :=
  | ValueError (msg : string)
  | KeyError (key : string)
  | TypeError
  | IndexError
  | ValidationError.

Inductive result (A : Type) : Type :=
  | Ok (a : A)
  | Raise (e : exn).
Arguments Ok {A} a.
Arguments Raise {A} e.

#[global] Instance result_ret : MRet result := λ A a, Ok a.
#[global] Instance result_bind : MBind result := λ A B k r,
  match r with
  | Ok a => k a
  | Raise e => Raise e
  end.

(** The spec calls the [ValueError]s of the two functions
    configuration errors. *)
Definition ConfigurationError (e : exn) : Prop := ∃ msg, e = ValueError msg.

(** [d[key]] on a dictionary. *)
Definition getitem {V} (d : gmap string V) (key : string) : result V :=
  match d !! key with
  | Some v => Ok v
  | None => Raise (KeyError key)
  end.

(** ** Hyperparameters *)

(** Modelled from the spec: [params.py] (the classes [HyperParameter] and
    [HyperParameterSet]) is absent.  Grid search tells three kinds apart:
    categorical, constant, and every other kind, which it rejects. *)
Inductive param_type : Type :=
  | CATEGORICAL
  | CONSTANT
  | OTHER_DISTRIBUTION.

#[global] Instance param_type_eq_dec : EqDecision param_type.
Proof. solve_decision. Defined.

(** Modelled from the spec: a parameter has a name, a kind, the ordered
    candidate values of a categorical parameter and the value bound to
    it: the fixed value of a constant, or the value chosen for the run
    being built ([None] until then).  The spec gives every categorical
    parameter a non-empty candidate sequence; the record does not enforce
    it, and no statement below is about a categorical parameter without
    candidates. *)
Record HyperParameter : Type := {
  name : string;
  type : param_type;
  values : list pyval;
  value : pyval
}.

Definition set_value (p : HyperParameter) (v : pyval) : HyperParameter :=
  {| name := name p; type := type p; values := values p; value := v |}.

(** Modelled from the spec: [HyperParameterSet.to_config] is absent.  Each
    parameter contributes the entry [name: {'value': value}], the shape
    that the docstring of [grid_search_next_runs] reads from a suggestion
    and that the function reads from an observed run; a later parameter
    of the same name overwrites an earlier one. *)
Definition to_config (params : list HyperParameter)
  : gmap string (gmap string pyval) :=
  foldl (λ d p, <[name p := {["value" := value p]}]> d) ∅ params.

(** The sweep configuration, with its [parameters] section already turned
    into the parameter set by [HyperParameterSet.from_config]. *)
Record SweepConfigDict : Type := {
  method : option string;
  parameters : option (list HyperParameter)
}.

(** A run of the batch suggester: [config[name]['value']]. *)
Record SweepRun : Type := { config : gmap string (gmap string pyval) }.

(** A run of the single-suggestion function: [config[name]]. *)
Record Run : Type := { run_config : gmap string pyval }.

(** ** What the functions take from their environment *)

(** Modelled from the spec: [config/cfg.py] (the validating constructor
    [SweepConfig]) is absent, so the schema is a parameter.  The order in
    which a set is iterated and the permutation [random.shuffle] picks are
    parameters too.  The iteration order of a difference of sets depends
    on both operands, so one [set_order] stands for the order of one call,
    or of calls that build the same universe and the same seen-set; a
    statement about calls with different seen-sets takes a runtime for
    each. *)
Record Runtime : Type := {
  schema_conforms : SweepConfigDict → bool;
  set_order : list point → list point;
  shuffle : list point → list point
}.

Definition SweepConfig (rt : Runtime) (d : SweepConfigDict)
  : result SweepConfigDict :=
  if schema_conforms rt d then Ok d else Raise ValidationError.

(** ** Sets of tuples and the Cartesian product *)

(** [set(items)]: every item is hashed, equal items are kept once. *)
Definition py_set (items : list point) : result (list point) :=
  if forallb (forallb hashable) items then Ok (remove_dups items)
  else Raise TypeError.

(** [itertools.product] of the axes: the rightmost axis advances fastest; no
    axis at all gives the one empty tuple. *)
Fixpoint product (axes : list (list pyval)) : list point :=
  match axes with
  | [] => [[]]
  | axis :: rest => x ← axis; (λ t, x :: t) <$> product rest
  end.

(** [dict(zip(keys, vals))]. *)
Definition dict_of_pairs {V} (pairs : list (string * V)) : gmap string V :=
  foldl (λ d kv, <[kv.1 := kv.2]> d) ∅ pairs.

(** ** Messages of the raised errors *)

Definition dquote : string := String (Ascii.ascii_of_nat 34) EmptyString.

Definition invalid_method_msg : string :=
  "Invalid sweep configuration for grid_search_next_run.".

Definition missing_parameters_msg : string :=
  "Grid search requires " +:+ dquote +:+ "parameters" +:+ dquote +:+ " section".

Definition disallowed_type_msg (param_name : string) : string :=
  "Parameter " +:+ param_name +:+
  " is a disallowed type with grid search. Grid search requires all parameters to be categorical or constant".

(** The loop that checks that all parameters are categorical or constant;
    it stops at the first that is neither. *)
Fixpoint check_types (params : list HyperParameter) : result unit :=
  match params with
  | [] => Ok tt
  | p :: rest =>
      if bool_decide (type p ≠ CATEGORICAL) && bool_decide (type p ≠ CONSTANT)
      then Raise (ValueError (disallowed_type_msg (name p)))
      else check_types rest
  end.

(** ** [grid_search_next_runs] *)

(** The projection of one observed run: the canonical values of the
    categorical names that the run's own config holds, in the order of
    [param_names]. *)
Definition seen_tuple (param_names : list string) (run : SweepRun)
  : result point :=
  mapM (λ name,
          entry ← getitem (config run) name;
          v ← getitem entry "value";
          mret (list_to_tuple v))
       (filter (λ name, is_Some (config run !! name)) param_names).

(** [for param, value in zip(discrete_params, next_value):
       param.value = tuple_to_list(value)] *)
Fixpoint assign_values (discrete_params : list HyperParameter)
    (next_value : point) : list HyperParameter :=
  match discrete_params, next_value with
  | param :: params', v :: next_value' =>
      set_value param (tuple_to_list v) :: assign_values params' next_value'
  | _, _ => discrete_params
  end.

(** The loop that draws [count] points from the front of
    [remaining_params]; the parameter objects keep the values bound in
    the previous round. *)
Fixpoint draw_runs (count : nat) (remaining_params : list point)
    (discrete_params : list HyperParameter)
    (constant_config : gmap string (gmap string pyval))
    (retval : list (option SweepRun)) : result (list (option SweepRun)) :=
  match count with
  | O => Ok retval
  | S count' =>
      match remaining_params with
      | [] => Raise IndexError
      | next_value :: remaining_params' =>
          let discrete_params' := assign_values discrete_params next_value in
          let output_config := constant_config ∪ to_config discrete_params' in
          draw_runs count' remaining_params' discrete_params' constant_config
                    (retval ++ [Some {| config := output_config |}])
      end
  end.

Definition grid_search_next_runs (rt : Runtime) (runs : list SweepRun)
    (sweep_config : SweepConfigDict) (validate : bool) (n : Z)
    (randomize_order : bool) : result (list (option SweepRun)) :=
  sweep_config ← (if validate then SweepConfig rt sweep_config
                  else Ok sweep_config);
  m ← match method sweep_config with
      | Some m => Ok m
      | None => Raise (KeyError "method")
      end;
  if bool_decide (m ≠ "grid") then Raise (ValueError invalid_method_msg)
  else
  match parameters sweep_config with
  | None => Raise (ValueError missing_parameters_msg)
  | Some params =>
      _ ← check_types params : result unit;
      let discrete_params := filter (λ p, type p = CATEGORICAL) params in
      let constant_params := filter (λ p, type p = CONSTANT) params in
      let constant_config := to_config constant_params in
      let param_names : list string := name <$> discrete_params in
      let param_values : list (list pyval) :=
        (λ p, elements_of (list_to_tuple (VList (values p))))
          <$> discrete_params in
      all_param_values ← py_set (product param_values);
      seen ← mapM (seen_tuple param_names) runs;
      param_values_seen ← py_set seen;
      let remaining_params :=
        set_order rt (list_difference all_param_values param_values_seen) in
      let n_remaining := Z.of_nat (length remaining_params) in
      let remaining_params :=
        if randomize_order then shuffle rt remaining_params
        else remaining_params in
      retval ← draw_runs (Z.to_nat (Z.min n n_remaining)) remaining_params
                         discrete_params constant_config [];
      if bool_decide (n > n_remaining) then Ok (retval ++ [None])
      else Ok retval
  end.

(** ** [grid_search_next_run] *)

Definition grid_search_next_run (rt : Runtime) (runs : list Run)
    (sweep_config : SweepConfigDict) (randomize_order : bool)
  : result (option Run) :=
  sweep_config ← SweepConfig rt sweep_config;
  match parameters sweep_config with
  | None => Raise (ValueError missing_parameters_msg)
  | Some params =>
      _ ← check_types params : result unit;
      let discrete_params := filter (λ p, type p = CATEGORICAL) params in
      let param_names : list string := name <$> discrete_params in
      let param_values : list (list pyval) := values <$> discrete_params in
      all_param_values ← py_set (product param_values);
      seen ← mapM (λ run, mapM (getitem (run_config run)) param_names) runs;
      param_values_seen ← py_set seen;
      let remaining_params :=
        set_order rt (list_difference all_param_values param_values_seen) in
      let remaining_params :=
        if randomize_order then shuffle rt remaining_params
        else remaining_params in
      match remaining_params with
      | [] => Ok None
      | first :: _ =>
          Ok (Some {| run_config := dict_of_pairs (zip param_names first) |})
      end
  end.

(** ** The grid and its materialization, for the statements *)

Definition discrete_of (params : list HyperParameter) : list HyperParameter :=
  filter (λ p, type p = CATEGORICAL) params.

Definition constants_of (params : list HyperParameter) : list HyperParameter :=
  filter (λ p, type p = CONSTANT) params.

(** The canonical candidate values of each categorical parameter. *)
Definition grid_axes (params : list HyperParameter) : list (list pyval) :=
  (λ p, list_to_tuple <$> values p) <$> discrete_of params.

(** The config entries of one grid point: every name with its value
    converted back by [tuple_to_list]. *)
Definition point_config (names : list string) (pt : point)
  : gmap string (gmap string pyval) :=
  dict_of_pairs
    (zip names ((λ v, {["value" := tuple_to_list v]}) <$> pt)).

(** The run suggested for one grid point. *)
Definition suggested (params : list HyperParameter) (pt : point) : SweepRun :=
  {| config := to_config (constants_of params)
               ∪ point_config (name <$> discrete_of params) pt |}.

(** The iteration order and the shuffle return permutations. *)
Definition runtime_ok (rt : Runtime) : Prop :=
  (∀ l, set_order rt l ≡ₚ l) ∧ (∀ l, shuffle rt l ≡ₚ l).

(** The request passes every check before the grid is enumerated, every
    grid point and every projected run is hashable; [seen] are the
    projections of the runs. *)
Definition reaches_grid (rt : Runtime) (runs : list SweepRun)
    (sweep_config : SweepConfigDict) (validate : bool)
    (params : list HyperParameter) (seen : list point) : Prop :=
  (validate = true → schema_conforms rt sweep_config = true)
  ∧ method sweep_config = Some "grid"
  ∧ parameters sweep_config = Some params
  ∧ check_types params = Ok tt
  ∧ forallb (forallb hashable) (product (grid_axes params)) = true
  ∧ mapM (seen_tuple (name <$> discrete_of params)) runs = Ok seen
  ∧ forallb (forallb hashable) seen = true.

(** The points left to suggest, before any ordering. *)
Definition unseen (params : list HyperParameter) (seen : list point)
  : list point :=
  list_difference (remove_dups (product (grid_axes params)))
                  (remove_dups seen).

(** The sequence the suggestions are drawn from. *)
Definition remaining_sequence (rt : Runtime) (params : list HyperParameter)
    (seen : list point) (randomize_order : bool) : list point :=
  if randomize_order then shuffle rt (set_order rt (unseen params seen))
  else set_order rt (unseen params seen).

(** The size of the universe: the product of the candidate counts. *)
Definition grid_size (axes : list (list pyval)) : nat :=
  foldr (λ axis acc, (length axis * acc)%nat) 1%nat axes.

(** The product of the candidate counts of the categorical parameters. *)
Definition candidate_count_product (params : list HyperParameter) : nat :=
  foldr (λ p acc, (length (values p) * acc)%nat) 1%nat (discrete_of params).

(** The candidate values of each categorical parameter, as they are. *)
Definition raw_axes (params : list HyperParameter) : list (list pyval) :=
  values <$> discrete_of params.

Definition reaches_grid_single (rt : Runtime) (runs : list Run)
    (sweep_config : SweepConfigDict) (params : list HyperParameter)
    (seen : list point) : Prop :=
  schema_conforms rt sweep_config = true
  ∧ parameters sweep_config = Some params
  ∧ check_types params = Ok tt
  ∧ forallb (forallb hashable) (product (raw_axes params)) = true
  ∧ mapM (λ run, mapM (getitem (run_config run))
                      (name <$> discrete_of params)) runs = Ok seen
  ∧ forallb (forallb hashable) seen = true.

Definition unseen_single (params : list HyperParameter) (seen : list point)
  : list point :=
  list_difference (remove_dups (product (raw_axes params))) (remove_dups seen).

(** The run of the batch suggester that holds the same assignment as a
    run of the single-suggestion function. *)
Definition wrap_run (r : Run) : SweepRun :=
  {| config := (λ v, {["value" := v]}) <$> run_config r |}.

(** The single result and the batch result of one signal the same: both
    exhausted, or both raising the same exception, or one run each, the
    batch run holding under ['value'] the values of the single run
    converted by [tuple_to_list]. *)
Definition same_suggestion (single : result (option Run))
    (batch : result (list (option SweepRun))) : Prop :=
  match single, batch with
  | Ok None, Ok [None] => True
  | Ok (Some r), Ok [Some s] =>
      config s = (λ v, {["value" := tuple_to_list v]}) <$> run_config r
  | Raise e, Raise e' => e = e'
  | _, _ => False
  end.

(** ** Concrete inputs *)

(** A runtime whose schema accepts every configuration, whose sets are
    iterated in insertion order and whose shuffle reverses. *)
Definition rt0 : Runtime :=
  {| schema_conforms := λ _, true; set_order := λ l, l; shuffle := reverse |}.

(** A runtime that iterates a set in the reverse of the insertion order
    and whose shuffle leaves the order. *)
Definition rt1 : Runtime :=
  {| schema_conforms := λ _, true; set_order := reverse; shuffle := λ l, l |}.

Definition categorical (nm : string) (vals : list pyval) : HyperParameter :=
  {| name := nm; type := CATEGORICAL; values := vals; value := VNone |}.
Definition constant (nm : string) (v : pyval) : HyperParameter :=
  {| name := nm; type := CONSTANT; values := []; value := v |}.
Definition uniform (nm : string) : HyperParameter :=
  {| name := nm; type := OTHER_DISTRIBUTION; values := []; value := VNone |}.

Definition grid (params : list HyperParameter) : SweepConfigDict :=
  {| method := Some "grid"; parameters := Some params |}.

(** The space of the test configuration: [v1] in {1, 2, 3} and [v2] in
    {4, 5}. *)
Definition two_params : list HyperParameter :=
  [categorical "v1" [VInt 1; VInt 2; VInt 3];
   categorical "v2" [VInt 4; VInt 5]].

Definition sweep_run (kvs : list (string * pyval)) : SweepRun :=
  {| config := dict_of_pairs ((λ kv, (kv.1, {["value" := kv.2]})) <$> kvs) |}.

(** * Properties *)

(** The example of the docstring of [grid_search_next_runs]. *)
Example docstring_example :
  grid_search_next_runs rt0 [] (grid [categorical "a" [VInt 1; VInt 2; VInt 3]])
    false 1 false
  = Ok [Some (sweep_run [("a", VInt 1)])].
Proof. vm_compute. reflexivity. Qed.

(** ** Canonical forms *)

Lemma list_to_tuple_hashable_id v : hashable v = true → list_to_tuple v = v.
Proof.
  induction v as [| | |items IH|items IH] using pyval_ind_nested;
    simpl; intros Hh; try done.
Qed.

Lemma tuple_to_list_tuple_free_id v : tuple_free v = true → tuple_to_list v = v.
Proof.
  induction v as [| | |items IH|items IH] using pyval_ind_nested;
    simpl; intros Hh; try done.
Qed.

Lemma fmap_id_Forall {A} (f : A → A) (l : list A) :
  Forall (λ x, f x = x) l → f <$> l = l.
Proof.
  induction 1 as [|x l Hx _ IH]; [done|]. rewrite fmap_cons. congruence.
Qed.

Lemma forallb_Forall_true {A} (f : A → bool) (l : list A) :
  forallb f l = true ↔ Forall (λ x, f x = true) l.
Proof.
  induction l as [|x l IH]; simpl.
  - split; auto.
  - rewrite andb_true_iff, IH, Forall_cons. done.
Qed.

(** A list-free tuple structure is turned into lists and back unchanged. *)
Lemma list_to_tuple_tuple_to_list v :
  hashable v = true → list_to_tuple (tuple_to_list v) = v.
Proof.
  induction v as [| | |items IH|items IH] using pyval_ind_nested;
    simpl; intros Hh; try done.
  f_equal. rewrite <- list_fmap_compose. apply fmap_id_Forall.
  apply forallb_Forall_true in Hh.
  induction IH as [|x l Hx _ IHl]; [constructor|].
  apply Forall_cons in Hh as [Hhx Hhl]. constructor; [apply Hx, Hhx | auto].
Qed.

(** A tuple-free list structure is turned into tuples and back unchanged. *)
Lemma tuple_to_list_list_to_tuple v :
  tuple_free v = true → tuple_to_list (list_to_tuple v) = v.
Proof.
  induction v as [| | |items IH|items IH] using pyval_ind_nested;
    simpl; intros Hf; try done.
  f_equal. rewrite <- list_fmap_compose. apply fmap_id_Forall.
  apply forallb_Forall_true in Hf.
  induction IH as [|x l Hx _ IHl]; [constructor|].
  apply Forall_cons in Hf as [Hfx Hfl]. constructor; [apply Hx, Hfx | auto].
Qed.

Lemma hashable_list_to_tuple_of_tuple_free v :
  tuple_free v = true → hashable (list_to_tuple v) = true.
Proof.
  induction v as [| | |items IH|items IH] using pyval_ind_nested;
    simpl; intros Hf; try done.
  apply forallb_Forall_true, Forall_fmap.
  apply forallb_Forall_true in Hf.
  induction IH as [|x l Hx _ IHl]; [constructor|].
  apply Forall_cons in Hf as [Hfx Hfl]. constructor; [apply Hx, Hfx | auto].
Qed.

Lemma hashable_as_tuples v : hashable (as_tuples v) = true.
Proof.
  induction v as [| | |items IH|items IH] using pyval_ind_nested;
    simpl; try done.
  all: apply forallb_Forall_true, Forall_fmap; exact IH.
Qed.

(** The canonical form is hashable exactly when it is the all-tuples
    form: no list was left standing below a tuple. *)
Lemma hashable_list_to_tuple_iff v :
  hashable (list_to_tuple v) = true ↔ list_to_tuple v = as_tuples v.
Proof.
  split; [|intros ->; apply hashable_as_tuples].
  induction v as [| | |items IH|items IH] using pyval_ind_nested;
    simpl; intros Hh; try done.
  - f_equal. apply forallb_Forall_true, Forall_fmap in Hh.
    induction IH as [|x l Hx _ IHl]; [done|].
    apply Forall_cons in Hh as [Hhx Hhl]. simpl. f_equal; auto.
  - f_equal. apply forallb_Forall_true in Hh.
    induction IH as [|x l Hx _ IHl]; [done|].
    apply Forall_cons in Hh as [Hhx Hhl]. simpl. f_equal; [|auto].
    rewrite <- (list_to_tuple_hashable_id x Hhx) at 1. apply Hx.
    by rewrite (list_to_tuple_hashable_id x Hhx).
Qed.

Lemma tuple_to_list_inj_hashable v w :
  hashable v = true → hashable w = true →
  tuple_to_list v = tuple_to_list w → v = w.
Proof.
  intros Hv Hw Heq.
  rewrite <- (list_to_tuple_tuple_to_list v Hv),
          <- (list_to_tuple_tuple_to_list w Hw).
  by rewrite Heq.
Qed.

(** ** The Cartesian product *)

Lemma elem_of_product (axes : list (list pyval)) (t : point) :
  t ∈ product axes ↔ Forall2 (λ x axis, x ∈ axis) t axes.
Proof.
  revert t. induction axes as [|axis rest IH]; intros t; simpl.
  - rewrite list_elem_of_singleton. split.
    + intros ->. constructor.
    + by inversion 1.
  - rewrite list_elem_of_bind. split.
    + intros (x & Ht & Hx). apply list_elem_of_fmap in Ht as (t' & -> & Ht').
      constructor; [done|]. by apply IH.
    + inversion 1 as [|x axis' t' rest' Hx Hrest]; subst.
      exists x. split; [|done]. apply list_elem_of_fmap.
      exists t'. split; [done|]. by apply IH.
Qed.

Lemma length_elem_of_product (axes : list (list pyval)) (t : point) :
  t ∈ product axes → length t = length axes.
Proof. rewrite elem_of_product. apply Forall2_length. Qed.

Lemma length_bind_const {A B} (f : A → list B) (l : list A) (k : nat) :
  (∀ x, length (f x) = k) → length (l ≫= f) = (length l * k)%nat.
Proof.
  intros Hf. induction l as [|x l IH]; [done|].
  rewrite bind_cons, length_app, IH, Hf. simpl. lia.
Qed.

Lemma length_product (axes : list (list pyval)) :
  length (product axes) = grid_size axes.
Proof.
  induction axes as [|axis rest IH]; [done|]. simpl.
  rewrite (length_bind_const _ _ (length (product rest))).
  - by rewrite IH.
  - intros x. by rewrite length_fmap.
Qed.

Lemma NoDup_product (axes : list (list pyval)) :
  Forall NoDup axes → NoDup (product axes).
Proof.
  induction 1 as [|axis rest Haxis _ IH]; simpl.
  - apply NoDup_singleton.
  - apply NoDup_bind; [|intros x _|done].
    + intros x1 x2 t _ _ H1 H2.
      apply list_elem_of_fmap in H1 as (t1 & -> & _).
      apply list_elem_of_fmap in H2 as (t2 & [= -> _] & _). done.
    + apply NoDup_fmap_2; [|done]. by intros t1 t2 [= ->].
Qed.

(** ** Dictionaries built from pairs *)

Lemma dict_of_pairs_snoc {V} (pairs : list (string * V)) k v :
  dict_of_pairs (pairs ++ [(k, v)]) = <[k := v]> (dict_of_pairs pairs).
Proof. unfold dict_of_pairs. by rewrite foldl_snoc. Qed.

Lemma dict_of_pairs_lookup_Some {V} (pairs : list (string * V)) k v :
  dict_of_pairs pairs !! k = Some v → (k, v) ∈ pairs.
Proof.
  induction pairs as [|[k' v'] pairs IH] using rev_ind.
  - unfold dict_of_pairs. simpl. by rewrite lookup_empty.
  - rewrite dict_of_pairs_snoc, lookup_insert. case_decide as Hk.
    + intros [= <-]. subst. apply elem_of_app. right. by left.
    + intros Hl. apply elem_of_app. left. by apply IH.
Qed.

Lemma dict_of_pairs_lookup_None {V} (pairs : list (string * V)) k :
  k ∉ pairs.*1 → dict_of_pairs pairs !! k = None.
Proof.
  intros Hk. destruct (dict_of_pairs pairs !! k) as [v|] eqn:Hl; [|done].
  apply dict_of_pairs_lookup_Some in Hl. destruct Hk.
  apply list_elem_of_fmap. by exists (k, v).
Qed.

Lemma dict_of_pairs_lookup_NoDup {V} (pairs : list (string * V)) k v :
  NoDup pairs.*1 → (k, v) ∈ pairs → dict_of_pairs pairs !! k = Some v.
Proof.
  induction pairs as [|[k' v'] pairs IH] using rev_ind; intros Hnd Hin.
  - by apply elem_of_nil in Hin.
  - rewrite fmap_app in Hnd. apply NoDup_app in Hnd as (Hnd & Hdisj & _).
    rewrite dict_of_pairs_snoc, lookup_insert. case_decide as Hk.
    + subst k'. apply elem_of_app in Hin as [Hin|Hin].
      * destruct (Hdisj k); [|left].
        apply list_elem_of_fmap. by exists (k, v).
      * apply list_elem_of_singleton in Hin. congruence.
    + apply elem_of_app in Hin as [Hin|Hin]; [by apply IH|].
      apply list_elem_of_singleton in Hin. congruence.
Qed.

Lemma dict_of_pairs_fmap {V W} (f : V → W) (pairs : list (string * V)) :
  f <$> dict_of_pairs pairs = dict_of_pairs (prod_map id f <$> pairs).
Proof.
  induction pairs as [|[k v] pairs IH] using rev_ind; simpl.
  - unfold dict_of_pairs. simpl. apply fmap_empty.
  - rewrite fmap_app. simpl.
    rewrite !dict_of_pairs_snoc, fmap_insert, IH. done.
Qed.

Lemma to_config_pairs (params : list HyperParameter) :
  to_config params
  = dict_of_pairs ((λ p, (name p, {["value" := value p]})) <$> params).
Proof. unfold to_config, dict_of_pairs. by rewrite foldl_fmap. Qed.

(** ** Sequencing in the result monad *)

Lemma mapM_result_cons {A B} (f : A → result B) (x : A) (l : list A) :
  mapM f (x :: l)
  = match f x with
    | Ok y => match mapM f l with
              | Ok k => Ok (y :: k)
              | Raise e => Raise e
              end
    | Raise e => Raise e
    end.
Proof. reflexivity. Qed.

Lemma mapM_result_Ok {A B} (f : A → result B) (l : list A) (k : list B) :
  mapM f l = Ok k ↔ Forall2 (λ x y, f x = Ok y) l k.
Proof.
  revert k. induction l as [|x l IH]; intros k.
  - split; [intros [= <-]; constructor | by inversion 1].
  - rewrite mapM_result_cons. split.
    + destruct (f x) as [y|e] eqn:Hx; [|done].
      destruct (mapM f l) as [k'|e] eqn:Hl; [|done].
      intros [= <-]. constructor; [done|]. by apply IH.
    + inversion 1 as [|? y ? k' Hy Hk]; subst.
      apply IH in Hk. by rewrite Hy, Hk.
Qed.

Lemma mapM_result_app {A B} (f : A → result B) (l1 l2 : list A) k1 k2 :
  mapM f l1 = Ok k1 → mapM f l2 = Ok k2 → mapM f (l1 ++ l2) = Ok (k1 ++ k2).
Proof.
  rewrite !mapM_result_Ok. apply Forall2_app.
Qed.

(** ** The materialization loop *)

Lemma fmap_name_assign_values (dps : list HyperParameter) (t : point) :
  name <$> assign_values dps t = name <$> dps.
Proof.
  revert t. induction dps as [|p dps IH]; intros [|v t]; simpl; try done.
  by rewrite IH.
Qed.

Lemma length_assign_values (dps : list HyperParameter) (t : point) :
  length (assign_values dps t) = length dps.
Proof.
  rewrite <- (length_fmap name), fmap_name_assign_values.
  apply length_fmap.
Qed.

Lemma to_config_assign_values (dps : list HyperParameter) (t : point) :
  length t = length dps →
  to_config (assign_values dps t) = point_config (name <$> dps) t.
Proof.
  intros Hlen. rewrite to_config_pairs. unfold point_config. f_equal.
  revert t Hlen. induction dps as [|p dps IH]; intros [|v t] Hlen;
    simpl in *; try done.
  f_equal. apply IH. lia.
Qed.

Lemma draw_runs_take (count : nat) (remaining : list point)
    (dps : list HyperParameter) cc (retval : list (option SweepRun)) :
  (count ≤ length remaining)%nat →
  Forall (λ t, length t = length dps) remaining →
  draw_runs count remaining dps cc retval
  = Ok (retval ++
        ((λ t, Some {| config := cc ∪ point_config (name <$> dps) t |})
           <$> take count remaining)).
Proof.
  revert remaining dps retval.
  induction count as [|count IH]; intros remaining dps retval Hc Hlen; simpl.
  - by rewrite app_nil_r.
  - destruct remaining as [|t remaining]; simpl in Hc; [lia|].
    apply Forall_cons in Hlen as [Ht Hlen].
    rewrite IH; [| lia | by rewrite length_assign_values].
    rewrite to_config_assign_values, fmap_name_assign_values by done.
    simpl. by rewrite <- app_assoc.
Qed.

(** ** The path of a request through [grid_search_next_runs] *)

Lemma py_set_Ok (items : list point) :
  forallb (forallb hashable) items = true → py_set items = Ok (remove_dups items).
Proof. unfold py_set. by intros ->. Qed.

Lemma py_set_inv (items s : list point) :
  py_set items = Ok s →
  forallb (forallb hashable) items = true ∧ s = remove_dups items.
Proof.
  unfold py_set. destruct (forallb _ items); [|done]. by intros [= <-].
Qed.

Lemma check_types_Ok (params : list HyperParameter) :
  check_types params = Ok tt
  ↔ Forall (λ p, type p = CATEGORICAL ∨ type p = CONSTANT) params.
Proof.
  induction params as [|p params IH]; simpl.
  - split; [constructor|done].
  - rewrite Forall_cons, <- IH.
    destruct (type p); simpl.
    + split; [intros H; split; [by left|exact H] | by intros [_ H]].
    + split; [intros H; split; [by right|exact H] | by intros [_ H]].
    + split; [done | by intros [[?|?] _]].
Qed.

Lemma length_unseen_points (params : list HyperParameter) (seen : list point) :
  Forall (λ t, length t = length (discrete_of params)) (unseen params seen).
Proof.
  apply Forall_forall. intros t Ht.
  apply list_elem_of_difference in Ht as [Ht _].
  apply elem_of_remove_dups, length_elem_of_product in Ht.
  rewrite Ht. unfold grid_axes. by rewrite length_fmap.
Qed.

Lemma remaining_sequence_perm rt params seen rand :
  runtime_ok rt → remaining_sequence rt params seen rand ≡ₚ unseen params seen.
Proof.
  intros [Hord Hshuf]. unfold remaining_sequence.
  destruct rand; [rewrite Hshuf|]; apply Hord.
Qed.

Lemma grid_search_next_runs_reaches rt runs sweep_config validate n rand
    params seen :
  runtime_ok rt →
  reaches_grid rt runs sweep_config validate params seen →
  grid_search_next_runs rt runs sweep_config validate n rand
  = Ok (((Some ∘ suggested params)
          <$> take (Z.to_nat (Z.min n (Z.of_nat (length (unseen params seen)))))
                   (remaining_sequence rt params seen rand))
        ++ (if bool_decide (n > Z.of_nat (length (unseen params seen)))
            then [None] else [])).
Proof.
  intros Hrt (Hval & Hm & Hp & Hty & Hgrid & Hseen & Hhash).
  pose proof (remaining_sequence_perm rt params seen rand Hrt) as Hperm.
  pose proof (remaining_sequence_perm rt params seen false Hrt) as Hperm0.
  unfold remaining_sequence in Hperm, Hperm0.
  unfold grid_search_next_runs.
  assert ((if validate then SweepConfig rt sweep_config else Ok sweep_config)
          = Ok sweep_config) as ->.
  { destruct validate; [|done]. unfold SweepConfig. by rewrite Hval. }
  cbn [mbind result_bind]. rewrite Hm. cbn [mbind result_bind].
  rewrite bool_decide_eq_false_2; [|intros H; apply H; reflexivity].
  rewrite Hp, Hty. cbn [mbind result_bind].
  change ((λ p : HyperParameter, elements_of (list_to_tuple (VList (values p))))
            <$> filter (λ p, type p = CATEGORICAL) params)
    with (grid_axes params).
  rewrite (py_set_Ok _ Hgrid). cbn [mbind result_bind].
  change (filter (λ p, type p = CATEGORICAL) params) with (discrete_of params).
  rewrite Hseen. cbn [mbind result_bind].
  rewrite (py_set_Ok _ Hhash). cbn [mbind result_bind].
  change (list_difference _ _) with (unseen params seen).
  rewrite (Permutation_length Hperm0).
  rewrite draw_runs_take.
  - cbn [mbind result_bind app].
    destruct (bool_decide _); [reflexivity | by rewrite app_nil_r].
  - rewrite (Permutation_length Hperm). lia.
  - rewrite Hperm. apply length_unseen_points.
Qed.

Lemma grid_search_next_runs_Ok_inv rt runs sweep_config validate n rand out :
  grid_search_next_runs rt runs sweep_config validate n rand = Ok out →
  ∃ params seen, reaches_grid rt runs sweep_config validate params seen.
Proof.
  unfold grid_search_next_runs, reaches_grid.
  assert (∀ r : result SweepConfigDict,
            r = (if validate then SweepConfig rt sweep_config
                 else Ok sweep_config) →
            (∀ c, r = Ok c →
               c = sweep_config
               ∧ (validate = true → schema_conforms rt sweep_config = true)))
    as Hgate.
  { intros r -> c. unfold SweepConfig. destruct validate.
    - destruct (schema_conforms rt sweep_config); [|done].
      intros [= <-]. done.
    - intros [= <-]. done. }
  destruct (if validate then SweepConfig rt sweep_config else Ok sweep_config)
    as [c|e] eqn:Hc; [|done].
  destruct (Hgate _ eq_refl c eq_refl) as [-> Hval].
  cbn [mbind result_bind].
  destruct (method sweep_config) as [m|]; [|done]. cbn [mbind result_bind].
  case_bool_decide as Hm; [done|].
  assert (m = "grid") as -> by (destruct (decide (m = "grid")); done).
  destruct (parameters sweep_config) as [params|]; [|done].
  destruct (check_types params) as [[]|e] eqn:Hty; [|done].
  cbn [mbind result_bind].
  change ((λ p : HyperParameter, elements_of (list_to_tuple (VList (values p))))
            <$> filter (λ p, type p = CATEGORICAL) params)
    with (grid_axes params).
  destruct (py_set (product (grid_axes params))) as [all|e] eqn:Hall; [|done].
  apply py_set_inv in Hall as [Hgrid ->]. cbn [mbind result_bind].
  change (filter (λ p, type p = CATEGORICAL) params) with (discrete_of params).
  destruct (mapM _ runs) as [seen|e] eqn:Hseen; [|done].
  cbn [mbind result_bind].
  destruct (py_set seen) as [pvs|e] eqn:Hpvs; [|done].
  apply py_set_inv in Hpvs as [Hhash ->].
  intros _. exists params, seen. done.
Qed.

(** Every successful call is described by the grid it reached. *)
Lemma grid_search_next_runs_Ok rt runs sweep_config validate n rand out :
  runtime_ok rt →
  grid_search_next_runs rt runs sweep_config validate n rand = Ok out →
  ∃ params seen,
    reaches_grid rt runs sweep_config validate params seen
    ∧ out = ((Some ∘ suggested params)
               <$> take (Z.to_nat
                           (Z.min n (Z.of_nat (length (unseen params seen)))))
                        (remaining_sequence rt params seen rand))
            ++ (if bool_decide (n > Z.of_nat (length (unseen params seen)))
                then [None] else []).
Proof.
  intros Hrt Hok.
  destruct (grid_search_next_runs_Ok_inv _ _ _ _ _ _ _ Hok)
    as (params & seen & Hreach).
  exists params, seen. split; [done|].
  rewrite (grid_search_next_runs_reaches _ _ _ _ n rand _ _ Hrt Hreach) in Hok.
  congruence.
Qed.

Lemma reaches_grid_params rt runs sweep_config validate params params' seen :
  reaches_grid rt runs sweep_config validate params' seen →
  parameters sweep_config = Some params → params' = params.
Proof. intros (_ & _ & Hp' & _) Hp. congruence. Qed.

(** The parameter set a request reached the grid with is the one of its
    configuration. *)
Ltac same_params Hreach Hp :=
  let E := fresh "E" in
  pose proof (reaches_grid_params _ _ _ _ _ _ _ Hreach Hp) as E;
  subst.

(** A suggested run of a successful call comes from an unseen point. *)
Lemma suggestion_from_unseen rt runs sweep_config validate n rand out s :
  runtime_ok rt →
  grid_search_next_runs rt runs sweep_config validate n rand = Ok out →
  Some s ∈ out →
  ∃ params seen pt,
    reaches_grid rt runs sweep_config validate params seen
    ∧ pt ∈ unseen params seen ∧ s = suggested params pt.
Proof.
  intros Hrt Hok Hin.
  destruct (grid_search_next_runs_Ok _ _ _ _ _ _ _ Hrt Hok)
    as (params & seen & Hreach & ->).
  exists params, seen.
  apply elem_of_app in Hin as [Hin|Hin].
  - apply list_elem_of_fmap in Hin as (pt & [= ->] & Hpt).
    exists pt. split_and!; [done| |done].
    apply elem_of_take in Hpt as (i & Hi & _).
    apply list_elem_of_lookup_2 in Hi.
    by rewrite (remaining_sequence_perm _ _ _ _ Hrt) in Hi.
  - destruct (bool_decide _); [|by apply elem_of_nil in Hin].
    by apply list_elem_of_singleton in Hin.
Qed.

(** ** The path of a request through [grid_search_next_run] *)

Lemma grid_search_next_run_reaches rt runs sweep_config rand params seen :
  reaches_grid_single rt runs sweep_config params seen →
  grid_search_next_run rt runs sweep_config rand
  = Ok (match (if rand
               then shuffle rt (set_order rt (unseen_single params seen))
               else set_order rt (unseen_single params seen)) with
        | [] => None
        | first :: _ =>
            Some {| run_config :=
                      dict_of_pairs (zip (name <$> discrete_of params) first) |}
        end).
Proof.
  intros (Hval & Hp & Hty & Hgrid & Hseen & Hhash).
  unfold grid_search_next_run, SweepConfig. rewrite Hval.
  cbn [mbind result_bind]. rewrite Hp, Hty. cbn [mbind result_bind].
  change (values <$> filter (λ p, type p = CATEGORICAL) params)
    with (raw_axes params).
  rewrite (py_set_Ok _ Hgrid). cbn [mbind result_bind].
  change (filter (λ p, type p = CATEGORICAL) params) with (discrete_of params).
  rewrite Hseen. cbn [mbind result_bind].
  rewrite (py_set_Ok _ Hhash). cbn [mbind result_bind].
  change (list_difference _ _) with (unseen_single params seen).
  by destruct (if rand then _ else _).
Qed.

Lemma rt0_ok : runtime_ok rt0.
Proof. split; intros l; simpl; [done | apply reverse_Permutation]. Qed.

Lemma rt1_ok : runtime_ok rt1.
Proof. split; intros l; simpl; [apply reverse_Permutation | done]. Qed.

Lemma Permutation_nil_eq {A} (l : list A) : l ≡ₚ [] → l = [].
Proof. intros H. symmetry in H. by apply Permutation_nil in H. Qed.

(** ** Exhaustion *)

(** C3. Once the request has reached the grid, [grid_search_next_runs]
    returns without raising: exactly min(n, remaining) suggestions (none
    for a count below one), followed by one [None] exactly when n exceeds
    the number of remaining configurations; with nothing remaining and a
    count of at least one the result is [[None]].
    [grid_search_next_run] returns [None] when nothing remains. *)
Theorem exhaustion_is_signaled rt rand :
  runtime_ok rt →
  (∀ runs sweep_config validate n params seen,
     reaches_grid rt runs sweep_config validate params seen →
     ∃ suggestions : list SweepRun,
       length suggestions
       = Z.to_nat (Z.min n (Z.of_nat (length (unseen params seen))))
       ∧ grid_search_next_runs rt runs sweep_config validate n rand
         = Ok ((Some <$> suggestions)
               ++ (if bool_decide (n > Z.of_nat (length (unseen params seen)))
                   then [None] else []))
       ∧ (unseen params seen = [] → 1 ≤ n →
          grid_search_next_runs rt runs sweep_config validate n rand
          = Ok [None]))
  ∧ (∀ runs sweep_config params seen,
       reaches_grid_single rt runs sweep_config params seen →
       unseen_single params seen = [] →
       grid_search_next_run rt runs sweep_config rand = Ok None).
Proof.
  intros Hrt. split.
  - intros runs sweep_config validate n params seen Hreach.
    pose proof (grid_search_next_runs_reaches _ _ _ _ n rand _ _ Hrt Hreach)
      as Heq.
    pose proof (remaining_sequence_perm rt params seen rand Hrt) as Hperm.
    exists (suggested params
              <$> take (Z.to_nat
                          (Z.min n (Z.of_nat (length (unseen params seen)))))
                       (remaining_sequence rt params seen rand)).
    split_and!.
    + rewrite length_fmap, length_take, (Permutation_length Hperm). lia.
    + by rewrite <- list_fmap_compose.
    + intros Hnil Hn. rewrite Heq, Hnil. simpl.
      rewrite Z.min_r by lia. simpl.
      by rewrite bool_decide_eq_true_2 by lia.
  - intros runs sweep_config params seen Hreach Hnil.
    rewrite (grid_search_next_run_reaches _ _ _ rand _ _ Hreach), Hnil.
    destruct Hrt as [Hord Hshuf].
    assert (set_order rt [] = []) as -> by apply Permutation_nil_eq, Hord.
    assert (shuffle rt [] = []) as -> by apply Permutation_nil_eq, Hshuf.
    by destruct rand.
Qed.

(** ** Rejected parameter kinds *)

Lemma check_types_Raise (params : list HyperParameter) :
  Exists (λ p, type p ≠ CATEGORICAL ∧ type p ≠ CONSTANT) params →
  ∃ p, p ∈ params ∧ type p ≠ CATEGORICAL ∧ type p ≠ CONSTANT
       ∧ check_types params = Raise (ValueError (disallowed_type_msg (name p))).
Proof.
  induction params as [|q params IH]; intros Hex.
  - by apply Exists_nil in Hex.
  - simpl. destruct (decide (type q ≠ CATEGORICAL ∧ type q ≠ CONSTANT))
      as [[Hq1 Hq2]|Hq].
    + exists q. rewrite !bool_decide_eq_true_2 by done. simpl.
      split_and!; [left|done..].
    + apply Exists_cons in Hex as [Hex|Hex]; [done|].
      destruct (IH Hex) as (p & Hp & Hp1 & Hp2 & Heq).
      exists p. split_and!; [by right|done..|].
      rewrite Heq. destruct (type q); simpl; try done.
      destruct Hq. done.
Qed.

(** The loop stops at the first parameter of an unsupported kind. *)
Lemma check_types_Raise_first (params : list HyperParameter) :
  Exists (λ p, type p ≠ CATEGORICAL ∧ type p ≠ CONSTANT) params →
  ∃ before p after,
    params = before ++ p :: after
    ∧ Forall (λ q, type q = CATEGORICAL ∨ type q = CONSTANT) before
    ∧ type p ≠ CATEGORICAL ∧ type p ≠ CONSTANT
    ∧ check_types params = Raise (ValueError (disallowed_type_msg (name p))).
Proof.
  induction params as [|q params IH]; intros Hex.
  - by apply Exists_nil in Hex.
  - destruct (decide (type q ≠ CATEGORICAL ∧ type q ≠ CONSTANT))
      as [[Hq1 Hq2]|Hq].
    + exists [], q, params. simpl.
      rewrite !bool_decide_eq_true_2 by done. simpl.
      split_and!; [done|constructor|done..].
    + apply Exists_cons in Hex as [Hex|Hex]; [done|].
      destruct (IH Hex) as (before & p & after & -> & Hok & Hp1 & Hp2 & Heq).
      exists (q :: before), p, after. simpl. rewrite Heq.
      assert (type q = CATEGORICAL ∨ type q = CONSTANT) as Hqok.
      { destruct (type q); [by left|by right|]. destruct Hq. done. }
      split_and!; [done|by constructor|done..|].
      by destruct Hqok as [->| ->].
Qed.

(** C5. A search space with a parameter that is neither categorical nor
    constant makes both functions raise on every request, so neither
    produces a suggestion and the parameter is never skipped.  The only
    exceptions that can come before the one of the kind check are those
    of the earlier checks: the schema's, and in [grid_search_next_runs]
    those of the [method] field.  When the request gets as far as the
    check of the kinds (the schema, where it is applied, accepts the
    configuration and the method is the grid literal), the exception is
    the [ValueError] whose message starts with [Parameter], then holds the
    name of the first such parameter. *)
Theorem unsupported_kind_is_rejected rt runs single_runs sweep_config
    validate n rand params :
  parameters sweep_config = Some params →
  Exists (λ p, type p ≠ CATEGORICAL ∧ type p ≠ CONSTANT) params →
  ∃ p msg,
    p ∈ params ∧ type p ≠ CATEGORICAL ∧ type p ≠ CONSTANT
    ∧ (∃ before after,
         params = before ++ p :: after
         ∧ Forall (λ q, type q = CATEGORICAL ∨ type q = CONSTANT) before)
    ∧ msg = "Parameter " +:+ name p +:+
            " is a disallowed type with grid search. Grid search requires all parameters to be categorical or constant"
    ∧ (grid_search_next_runs rt runs sweep_config validate n rand
       = Raise (ValueError msg)
       ∨ grid_search_next_runs rt runs sweep_config validate n rand
         = Raise ValidationError
       ∨ grid_search_next_runs rt runs sweep_config validate n rand
         = Raise (KeyError "method")
       ∨ grid_search_next_runs rt runs sweep_config validate n rand
         = Raise (ValueError
                    "Invalid sweep configuration for grid_search_next_run."))
    ∧ (grid_search_next_run rt single_runs sweep_config rand
       = Raise (ValueError msg)
       ∨ grid_search_next_run rt single_runs sweep_config rand
         = Raise ValidationError)
    ∧ ((validate = true → schema_conforms rt sweep_config = true) →
       method sweep_config = Some "grid" →
       grid_search_next_runs rt runs sweep_config validate n rand
       = Raise (ValueError msg)
       ∧ ConfigurationError (ValueError msg))
    ∧ (schema_conforms rt sweep_config = true →
       grid_search_next_run rt single_runs sweep_config rand
       = Raise (ValueError msg)).
Proof.
  intros Hp Hex.
  destruct (check_types_Raise_first params Hex)
    as (before & p & after & Hsplit & Hbefore & Hp1 & Hp2 & Hraise).
  assert (p ∈ params) as Hin
    by (rewrite Hsplit; apply elem_of_app; right; left).
  exists p, (disallowed_type_msg (name p)).
  assert (∃ before after,
            params = before ++ p :: after
            ∧ Forall (λ q, type q = CATEGORICAL ∨ type q = CONSTANT) before)
    as Hfirst by (by exists before, after).
  assert ((validate = true → schema_conforms rt sweep_config = true) →
          method sweep_config = Some "grid" →
          grid_search_next_runs rt runs sweep_config validate n rand
          = Raise (ValueError (disallowed_type_msg (name p)))) as Hruns.
  { intros Hval Hm. unfold grid_search_next_runs.
    assert ((if validate then SweepConfig rt sweep_config else Ok sweep_config)
            = Ok sweep_config) as ->.
    { destruct validate; [|done]. unfold SweepConfig. by rewrite Hval. }
    cbn [mbind result_bind]. rewrite Hm. cbn [mbind result_bind].
    rewrite bool_decide_eq_false_2; [|intros H; apply H; reflexivity].
    by rewrite Hp, Hraise. }
  assert (schema_conforms rt sweep_config = true →
          grid_search_next_run rt single_runs sweep_config rand
          = Raise (ValueError (disallowed_type_msg (name p)))) as Hrun.
  { intros Hval. unfold grid_search_next_run, SweepConfig.
    rewrite Hval. cbn [mbind result_bind]. by rewrite Hp, Hraise. }
  split_and!; try done.
  - destruct (decide (validate = true
                      ∧ schema_conforms rt sweep_config = false))
      as [[-> Hrej]|Hgate].
    { right. left. unfold grid_search_next_runs, SweepConfig.
      by rewrite Hrej. }
    assert (validate = true → schema_conforms rt sweep_config = true)
      as Hval.
    { intros ->. destruct (schema_conforms rt sweep_config); [done|].
      by destruct Hgate. }
    destruct (method sweep_config) as [m|] eqn:Hm.
    + destruct (decide (m = "grid")) as [->|Hne]; [left; by apply Hruns|].
      do 3 right. unfold grid_search_next_runs.
      assert ((if validate then SweepConfig rt sweep_config
               else Ok sweep_config) = Ok sweep_config) as ->.
      { destruct validate; [|done]. unfold SweepConfig. by rewrite Hval. }
      cbn [mbind result_bind]. rewrite Hm. cbn [mbind result_bind].
      by rewrite bool_decide_eq_true_2.
    + right. right. left. unfold grid_search_next_runs.
      assert ((if validate then SweepConfig rt sweep_config
               else Ok sweep_config) = Ok sweep_config) as ->.
      { destruct validate; [|done]. unfold SweepConfig. by rewrite Hval. }
      cbn [mbind result_bind]. by rewrite Hm.
  - destruct (schema_conforms rt sweep_config) eqn:Hval.
    + left. by apply Hrun.
    + right. unfold grid_search_next_run, SweepConfig. by rewrite Hval.
  - intros Hval Hm. split; [by apply Hruns|by eexists].
Qed.

(** ** A space without categorical parameters *)

Lemma filter_all_constant (params : list HyperParameter) :
  Forall (λ p, type p = CONSTANT) params →
  discrete_of params = [] ∧ constants_of params = params.
Proof.
  unfold discrete_of, constants_of.
  induction 1 as [|p params Hp _ [IH1 IH2]]; [done|].
  rewrite !filter_cons, IH1, IH2, Hp. split; [|done].
  by rewrite decide_False.
Qed.

Lemma seen_tuple_no_names (run : SweepRun) : seen_tuple [] run = Ok [].
Proof. reflexivity. Qed.

Lemma mapM_seen_tuple_no_names (runs : list SweepRun) :
  mapM (seen_tuple []) runs = Ok (replicate (length runs) []).
Proof.
  apply mapM_result_Ok. induction runs as [|r runs IH]; simpl; by constructor.
Qed.

Lemma forallb_hashable_replicate_nil (k : nat) :
  forallb (forallb hashable) (replicate k ([] : point)) = true.
Proof. induction k; simpl; auto. Qed.

(** C10. With constant parameters only, the universe is the one empty
    tuple.  On an empty history a request for one run returns exactly one
    run, whose config is the config of the constants; on a non-empty
    history every run projects to the empty tuple and the result is the
    sentinel alone. *)
Theorem constants_only_space rt runs sweep_config validate rand params :
  runtime_ok rt →
  (validate = true → schema_conforms rt sweep_config = true) →
  method sweep_config = Some "grid" →
  parameters sweep_config = Some params →
  Forall (λ p, type p = CONSTANT) params →
  product (grid_axes params) = [[]]
  ∧ grid_search_next_runs rt [] sweep_config validate 1 rand
    = Ok [Some {| config := to_config params |}]
  ∧ (runs ≠ [] →
     Forall (λ run, seen_tuple (name <$> discrete_of params) run = Ok []) runs
     ∧ grid_search_next_runs rt runs sweep_config validate 1 rand = Ok [None]).
Proof.
  intros Hrt Hval Hm Hp Hconst.
  destruct (filter_all_constant params Hconst) as [Hd Hc].
  assert (grid_axes params = []) as Haxes by (unfold grid_axes; by rewrite Hd).
  assert (∀ rs, reaches_grid rt rs sweep_config validate params
                  (replicate (length rs) [])) as Hreach.
  { intros rs. split_and!; try done.
    - apply check_types_Ok. eapply Forall_impl; [exact Hconst|]. by right.
    - by rewrite Haxes.
    - rewrite Hd. apply mapM_seen_tuple_no_names.
    - apply forallb_hashable_replicate_nil. }
  split_and!.
  - by rewrite Haxes.
  - pose proof (Hreach []) as Hreach0.
    change (replicate _ _) with (@nil point) in Hreach0.
    rewrite (grid_search_next_runs_reaches _ _ _ _ 1 rand _ _ Hrt Hreach0).
    pose proof (remaining_sequence_perm rt params [] rand Hrt) as Hperm.
    assert (unseen params [] = [[]]) as Hun
      by (unfold unseen; by rewrite Haxes).
    rewrite Hun in Hperm |- *. apply Permutation_singleton_r in Hperm.
    rewrite Hperm. simpl. unfold suggested. rewrite Hd, Hc.
    unfold point_config, dict_of_pairs. simpl.
    by rewrite (right_id_L ∅ (∪)).
  - intros Hne. split.
    + rewrite Hd. apply Forall_forall. intros run _. apply seen_tuple_no_names.
    + rewrite (grid_search_next_runs_reaches _ _ _ _ 1 rand _ _ Hrt
                 (Hreach runs)).
      assert (unseen params (replicate (length runs) []) = []) as Hun.
      { destruct (unseen params _) as [|t l] eqn:Hun; [done|].
        assert (t ∈ unseen params (replicate (length runs) [])) as Ht
          by (rewrite Hun; left).
        unfold unseen in Ht. rewrite Haxes in Ht.
        apply list_elem_of_difference in Ht as [Ht Hnot].
        apply elem_of_remove_dups, list_elem_of_singleton in Ht. subst t.
        destruct Hnot. apply elem_of_remove_dups.
        destruct runs as [|r runs]; [done|]. left. }
      rewrite Hun. simpl. done.
Qed.

(** ** What a suggested run holds *)

Lemma NoDup_fmap_elem_inj {A B} (f : A → B) (l : list A) x y :
  NoDup (f <$> l) → x ∈ l → y ∈ l → f x = f y → x = y.
Proof.
  induction l as [|a l IH]; intros Hnd Hx Hy Hf.
  - by apply elem_of_nil in Hx.
  - rewrite fmap_cons in Hnd. apply NoDup_cons in Hnd as [Ha Hnd].
    apply elem_of_cons in Hx as [->|Hx]; apply elem_of_cons in Hy as [->|Hy];
      try done.
    + destruct Ha. rewrite Hf. by apply list_elem_of_fmap_2.
    + destruct Ha. rewrite <- Hf. by apply list_elem_of_fmap_2.
    + by apply IH.
Qed.

Lemma NoDup_names_filter (P : HyperParameter → Prop)
    `{∀ p, Decision (P p)} (params : list HyperParameter) :
  NoDup (name <$> params) → NoDup (name <$> filter P params).
Proof.
  intros Hnd. eapply sublist_NoDup; [exact Hnd|].
  apply fmap_sublist, sublist_filter.
Qed.

Lemma elem_of_discrete_of (params : list HyperParameter) p :
  p ∈ discrete_of params ↔ type p = CATEGORICAL ∧ p ∈ params.
Proof. unfold discrete_of. by rewrite list_elem_of_filter. Qed.

Lemma elem_of_constants_of (params : list HyperParameter) p :
  p ∈ constants_of params ↔ type p = CONSTANT ∧ p ∈ params.
Proof. unfold constants_of. by rewrite list_elem_of_filter. Qed.

Lemma to_config_lookup_None (params : list HyperParameter) nm :
  nm ∉ name <$> params → to_config params !! nm = None.
Proof.
  intros Hnm. rewrite to_config_pairs. apply dict_of_pairs_lookup_None.
  by rewrite <- list_fmap_compose.
Qed.

Lemma to_config_lookup_NoDup (params : list HyperParameter) p :
  NoDup (name <$> params) → p ∈ params →
  to_config params !! name p = Some {["value" := value p]}.
Proof.
  intros Hnd Hp. rewrite to_config_pairs. apply dict_of_pairs_lookup_NoDup.
  - by rewrite <- list_fmap_compose.
  - apply list_elem_of_fmap. by exists p.
Qed.

(** A constant keeps its value in every suggested run. *)
Lemma suggested_lookup_constant (params : list HyperParameter) pt p :
  NoDup (name <$> params) → p ∈ params → type p = CONSTANT →
  config (suggested params pt) !! name p = Some {["value" := value p]}.
Proof.
  intros Hnd Hp Hty. unfold suggested. simpl.
  apply lookup_union_Some_l, to_config_lookup_NoDup.
  - by apply NoDup_names_filter.
  - by apply elem_of_constants_of.
Qed.

(** A categorical name holds the value of its coordinate, converted back. *)
Lemma suggested_lookup_discrete (params : list HyperParameter) pt i p v :
  NoDup (name <$> params) → length pt = length (discrete_of params) →
  discrete_of params !! i = Some p → pt !! i = Some v →
  config (suggested params pt) !! name p
  = Some {["value" := tuple_to_list v]}.
Proof.
  intros Hnd Hlen Hp Hv. unfold suggested. simpl.
  rewrite lookup_union_r.
  - unfold point_config. apply dict_of_pairs_lookup_NoDup.
    + rewrite fst_zip by (rewrite !length_fmap; lia).
      by apply NoDup_names_filter.
    + apply list_elem_of_lookup. exists i. apply lookup_zip_Some. split.
      * by apply list_lookup_fmap_Some_2.
      * by apply (list_lookup_fmap_Some_2 (λ v, {["value" := tuple_to_list v]})).
  - apply to_config_lookup_None. intros Hin.
    apply list_elem_of_fmap in Hin as (q & Hname & Hq).
    apply elem_of_constants_of in Hq as [Hqty Hq].
    apply list_elem_of_lookup_2, elem_of_discrete_of in Hp as [Hpty Hp].
    assert (p = q) by (by apply (NoDup_fmap_elem_inj name params)).
    congruence.
Qed.

Lemma filter_Forall_id {A} (P : A → Prop) `{∀ x, Decision (P x)}
    (l : list A) :
  Forall P l → filter P l = l.
Proof.
  induction 1 as [|x l Hx _ IH]; [done|].
  by rewrite filter_cons_True, IH.
Qed.

(** Read back as an observed run, a suggestion projects to the point it
    was built from. *)
Lemma seen_tuple_suggested (params : list HyperParameter) pt :
  NoDup (name <$> params) → length pt = length (discrete_of params) →
  forallb hashable pt = true →
  seen_tuple (name <$> discrete_of params) (suggested params pt) = Ok pt.
Proof.
  intros Hnd Hlen Hhash. unfold seen_tuple.
  assert (∀ i nm, (name <$> discrete_of params) !! i = Some nm →
            ∃ p v, discrete_of params !! i = Some p ∧ nm = name p
                   ∧ pt !! i = Some v) as Hidx.
  { intros i nm Hi. apply list_lookup_fmap_Some in Hi as (p & -> & Hp).
    destruct (lookup_lt_is_Some_2 pt i) as [v Hv].
    { rewrite Hlen. by eapply lookup_lt_Some. }
    by exists p, v. }
  rewrite filter_Forall_id.
  - apply mapM_result_Ok, Forall2_same_length_lookup_2.
    + by rewrite length_fmap.
    + intros i nm v Hi Hv.
      destruct (Hidx i nm Hi) as (p & v' & Hp & -> & Hv').
      assert (v' = v) as -> by congruence.
      unfold getitem.
      rewrite (suggested_lookup_discrete _ _ _ _ _ Hnd Hlen Hp Hv).
      cbn [mbind result_bind]. rewrite lookup_singleton_eq.
      cbn [mbind result_bind]. unfold mret, result_ret. f_equal.
      apply list_to_tuple_tuple_to_list.
      apply forallb_Forall_true in Hhash.
      eapply Forall_lookup_1 in Hhash; [exact Hhash|exact Hv].
  - apply Forall_forall. intros nm Hnm.
    apply list_elem_of_lookup in Hnm as [i Hi].
    destruct (Hidx i nm Hi) as (p & v & Hp & -> & Hv).
    rewrite (suggested_lookup_discrete _ _ _ _ _ Hnd Hlen Hp Hv). by eexists.
Qed.

Lemma hashable_unseen_point rt runs sweep_config validate params seen pt :
  reaches_grid rt runs sweep_config validate params seen →
  pt ∈ unseen params seen →
  pt ∈ product (grid_axes params) ∧ (pt ∉ seen)
  ∧ length pt = length (discrete_of params) ∧ forallb hashable pt = true.
Proof.
  intros (_ & _ & _ & _ & Hgrid & _) Hpt.
  pose proof (length_unseen_points params seen) as Hlen.
  rewrite Forall_forall in Hlen. specialize (Hlen pt Hpt).
  apply list_elem_of_difference in Hpt as [Hpt Hnot].
  rewrite elem_of_remove_dups in Hpt. rewrite elem_of_remove_dups in Hnot.
  split_and!; try done.
  apply forallb_Forall_true in Hgrid. rewrite Forall_forall in Hgrid.
  by apply Hgrid.
Qed.

(** ** Completeness on an empty history *)

Lemma grid_size_candidate_counts (params : list HyperParameter) :
  grid_size (grid_axes params) = candidate_count_product params.
Proof.
  unfold grid_axes, candidate_count_product.
  induction (discrete_of params) as [|p dps IH]; [done|].
  rewrite fmap_cons. cbn [grid_size foldr].
  rewrite length_fmap. f_equal. exact IH.
Qed.

Lemma unseen_empty_history (params : list HyperParameter) :
  Forall (λ p, NoDup (list_to_tuple <$> values p)) (discrete_of params) →
  unseen params [] = product (grid_axes params).
Proof.
  intros Hnd. unfold unseen. simpl.
  assert (NoDup (product (grid_axes params))) as Hprod.
  { apply NoDup_product. unfold grid_axes. by apply Forall_fmap. }
  assert (∀ l : list point, list_difference l [] = l) as Hdiff.
  { induction l as [|x l IH]; [done|]. simpl. by rewrite IH. }
  rewrite Hdiff. clear Hdiff.
  induction Hprod as [|x l Hx _ IH]; [done|].
  simpl. destruct (decide_rel elem_of x l); [done|]. by rewrite IH.
Qed.

Lemma hashable_product (axes : list (list pyval)) :
  Forall (Forall (λ v, hashable v = true)) axes →
  forallb (forallb hashable) (product axes) = true.
Proof.
  intros Hax. apply forallb_Forall_true, Forall_forall. intros t Ht.
  apply forallb_Forall_true. apply elem_of_product in Ht.
  induction Ht as [|x axis t axes Hx _ IH]; [constructor|].
  apply Forall_cons in Hax as [Haxis Hax]. constructor; [|by apply IH].
  rewrite Forall_forall in Haxis. by apply Haxis.
Qed.

(** C1, as amended.  When the parameter names are unique and the
    categorical candidates have hashable, pairwise distinct canonical
    forms, a request on an empty history for as many runs as the product
    of the candidate counts returns that many runs and no sentinel: the
    runs of a permutation of the full Cartesian product, pairwise
    distinct. *)
Theorem full_grid_on_empty_history rt sweep_config validate rand params :
  runtime_ok rt →
  (validate = true → schema_conforms rt sweep_config = true) →
  method sweep_config = Some "grid" →
  parameters sweep_config = Some params →
  Forall (λ p, type p = CATEGORICAL ∨ type p = CONSTANT) params →
  NoDup (name <$> params) →
  Forall (λ p, NoDup (list_to_tuple <$> values p)
               ∧ Forall (λ v, hashable (list_to_tuple v) = true) (values p))
         (discrete_of params) →
  ∃ pts : list point,
    pts ≡ₚ product (grid_axes params)
    ∧ grid_search_next_runs rt [] sweep_config validate
        (Z.of_nat (candidate_count_product params)) rand
      = Ok ((Some ∘ suggested params) <$> pts)
    ∧ length pts = candidate_count_product params
    ∧ NoDup pts
    ∧ NoDup (suggested params <$> pts).
Proof.
  intros Hrt Hval Hm Hp Hty Hnames Hcand.
  assert (Forall (λ p, NoDup (list_to_tuple <$> values p))
                 (discrete_of params)) as Hnd
    by (eapply Forall_impl; [exact Hcand|]; by intros p [? _]).
  assert (forallb (forallb hashable) (product (grid_axes params)) = true)
    as Hgrid.
  { apply hashable_product. unfold grid_axes. apply Forall_fmap.
    eapply Forall_impl; [exact Hcand|]. intros p [_ Hh]. simpl.
    by apply Forall_fmap. }
  assert (reaches_grid rt [] sweep_config validate params []) as Hreach.
  { split_and!; try done. by apply check_types_Ok. }
  pose proof (unseen_empty_history params Hnd) as Hun.
  pose proof (remaining_sequence_perm rt params [] rand Hrt) as Hperm.
  rewrite Hun in Hperm.
  assert (length (product (grid_axes params)) = candidate_count_product params)
    as Hlen by (by rewrite length_product, grid_size_candidate_counts).
  assert (NoDup (remaining_sequence rt params [] rand)) as Hndpts.
  { rewrite Hperm. apply NoDup_product. unfold grid_axes. by apply Forall_fmap. }
  exists (remaining_sequence rt params [] rand). split_and!; try done.
  - rewrite (grid_search_next_runs_reaches _ _ _ _ _ rand _ _ Hrt Hreach).
    rewrite Hun, Hlen, Z.min_id, Nat2Z.id.
    rewrite bool_decide_eq_false_2 by lia.
    rewrite take_ge by (rewrite (Permutation_length Hperm); lia).
    by rewrite app_nil_r.
  - by rewrite (Permutation_length Hperm).
  - apply NoDup_fmap_2_strong; [|done].
    intros pt1 pt2 H1 H2 Heq.
    assert (∀ pt, pt ∈ remaining_sequence rt params [] rand →
              seen_tuple (name <$> discrete_of params) (suggested params pt)
              = Ok pt) as Hback.
    { intros pt Hpt. rewrite (remaining_sequence_perm _ _ _ _ Hrt) in Hpt.
      destruct (hashable_unseen_point _ _ _ _ _ _ _ Hreach Hpt)
        as (_ & _ & Hl & Hh).
      by apply seen_tuple_suggested. }
    pose proof (Hback pt1 H1) as Hb1. pose proof (Hback pt2 H2) as Hb2.
    rewrite Heq in Hb1. congruence.
Qed.

(** C1, counterexample.  The candidate list [1, 1] has two candidates,
    yet a request for two runs gets one run and the sentinel: not two
    distinct runs. *)
Lemma duplicate_candidates_shrink_grid :
  let params := [categorical "a" [VInt 1; VInt 1]] in
  candidate_count_product params = 2%nat
  ∧ grid_search_next_runs rt0 [] (grid params) false 2 false
    = Ok [Some (sweep_run [("a", VInt 1)]); None]
  ∧ ¬ (∃ rs : list SweepRun,
         grid_search_next_runs rt0 [] (grid params) false
           (Z.of_nat (candidate_count_product params)) false
         = Ok (Some <$> rs)
         ∧ length rs = candidate_count_product params ∧ NoDup rs).
Proof.
  assert (grid_search_next_runs rt0 []
            (grid [categorical "a" [VInt 1; VInt 1]]) false 2 false
          = Ok [Some (sweep_run [("a", VInt 1)]); None]) as Heval
    by (vm_compute; reflexivity).
  split_and!; [reflexivity | exact Heval |].
  intros (rs & Heq & _).
  change (Z.of_nat _) with 2 in Heq. rewrite Heval in Heq.
  destruct rs as [|r1 [|r2 rs]]; simpl in Heq; discriminate.
Qed.

(** ** Deduplication against the history *)

Lemma elem_of_mapM_result {A B} (f : A → result B) (l : list A) k x :
  mapM f l = Ok k → x ∈ l → ∃ y, y ∈ k ∧ f x = Ok y.
Proof.
  intros Hk Hx. apply mapM_result_Ok in Hk.
  apply list_elem_of_lookup in Hx as [i Hi].
  destruct (Forall2_lookup_l _ _ _ _ _ Hk Hi) as (y & Hy & Hf).
  exists y. split; [|done]. by eapply list_elem_of_lookup_2.
Qed.

Lemma elem_of_mapM_result_iff {A B} (f : A → result B) (l : list A) k :
  mapM f l = Ok k → ∀ y, y ∈ k ↔ ∃ x, x ∈ l ∧ f x = Ok y.
Proof.
  intros Hk y. apply mapM_result_Ok in Hk. split.
  - intros Hy. apply list_elem_of_lookup in Hy as [i Hi].
    destruct (Forall2_lookup_r _ _ _ _ _ Hk Hi) as (x & Hx & Hf).
    exists x. split; [by eapply list_elem_of_lookup_2|done].
  - intros (x & Hx & Hf). apply list_elem_of_lookup in Hx as [i Hi].
    destruct (Forall2_lookup_l _ _ _ _ _ Hk Hi) as (y' & Hy' & Hf').
    assert (y' = y) as -> by congruence.
    by eapply list_elem_of_lookup_2.
Qed.

(** The points left to suggest, read off the history: the points of the
    product that no observed run projects to. *)
Lemma elem_of_unseen_history rt runs sweep_config validate params seen pt :
  reaches_grid rt runs sweep_config validate params seen →
  pt ∈ unseen params seen
  ↔ pt ∈ product (grid_axes params)
    ∧ ∀ run, run ∈ runs →
        seen_tuple (name <$> discrete_of params) run ≠ Ok pt.
Proof.
  intros (_ & _ & _ & _ & _ & Hseen & _). unfold unseen.
  rewrite list_elem_of_difference, !elem_of_remove_dups.
  rewrite (elem_of_mapM_result_iff _ _ _ Hseen). split.
  - intros [Hpt Hnot]. split; [done|]. intros run Hrun Heq.
    apply Hnot. by exists run.
  - intros [Hpt Hnot]. split; [done|]. intros (run & Hrun & Heq).
    by apply (Hnot run).
Qed.

(** What a successful call suggests: runs of product points that no
    observed run projects to; all of them when the sentinel is returned,
    and as many as were asked for when it is not. *)
Lemma suggestions_characterized rt runs sweep_config validate n rand out
    params :
  runtime_ok rt →
  parameters sweep_config = Some params →
  grid_search_next_runs rt runs sweep_config validate n rand = Ok out →
  (∀ s, Some s ∈ out →
        ∃ pt, pt ∈ product (grid_axes params)
              ∧ s = suggested params pt
              ∧ ∀ run, run ∈ runs →
                  seen_tuple (name <$> discrete_of params) run ≠ Ok pt)
  ∧ (None ∈ out →
     ∀ pt, pt ∈ product (grid_axes params) →
           (∀ run, run ∈ runs →
              seen_tuple (name <$> discrete_of params) run ≠ Ok pt) →
           Some (suggested params pt) ∈ out)
  ∧ (None ∉ out → length out = Z.to_nat n).
Proof.
  intros Hrt Hp Hok.
  destruct (grid_search_next_runs_Ok _ _ _ _ _ _ _ Hrt Hok)
    as (params' & seen & Hreach & ->).
  same_params Hreach Hp.
  pose proof (remaining_sequence_perm rt params seen rand Hrt) as Hperm.
  assert (None ∈ ((Some ∘ suggested params)
                    <$> take (Z.to_nat
                                (Z.min n (Z.of_nat
                                            (length (unseen params seen)))))
                             (remaining_sequence rt params seen rand))
                 ++ (if bool_decide
                          (n > Z.of_nat (length (unseen params seen)))
                     then [None] else [])
          ↔ n > Z.of_nat (length (unseen params seen))) as Hsent.
  { rewrite elem_of_app. case_bool_decide as Hgt; split.
    - done.
    - intros _. right. left.
    - intros [Hin|Hin]; [|by apply elem_of_nil in Hin].
      by apply list_elem_of_fmap in Hin as (pt & ? & _).
    - done. }
  split_and!.
  - intros s Hs. apply elem_of_app in Hs as [Hs|Hs].
    + apply list_elem_of_fmap in Hs as (pt & [= ->] & Hpt).
      apply elem_of_take in Hpt as (i & Hi & _).
      apply list_elem_of_lookup_2 in Hi. rewrite Hperm in Hi.
      apply (elem_of_unseen_history _ _ _ _ _ _ _ Hreach) in Hi as [Hpt Hnot].
      by exists pt.
    + destruct (bool_decide _); [|by apply elem_of_nil in Hs].
      by apply list_elem_of_singleton in Hs.
  - intros Hnone pt Hpt Hnot. apply Hsent in Hnone.
    rewrite Z.min_r, Nat2Z.id by lia.
    rewrite take_ge by (by rewrite (Permutation_length Hperm)).
    apply elem_of_app. left.
    apply (list_elem_of_fmap_2 (Some ∘ suggested params)).
    rewrite Hperm. by apply (elem_of_unseen_history _ _ _ _ _ _ _ Hreach).
  - intros Hnone. rewrite Hsent in Hnone.
    rewrite bool_decide_eq_false_2 by done.
    rewrite app_nil_r, length_fmap, length_take, (Permutation_length Hperm).
    lia.
Qed.

(** C2, counterexample.  The list [[[1]]] and the tuple [([1],)] have the
    same single element, but their canonical forms differ, and the
    second is not hashable. *)
Lemma list_below_tuple_not_canonical :
  list_to_tuple (VList [VList [VInt 1]])
  ≠ list_to_tuple (VTuple [VList [VInt 1]])
  ∧ hashable (list_to_tuple (VTuple [VList [VInt 1]])) = false.
Proof. split; [discriminate | reflexivity]. Qed.

(** C2, as amended.  A run of the history is never suggested again: the
    projection of a suggested run differs from the projection of every
    observed run.  What a successful call suggests are runs of points of
    the product that are structurally equal to no projection of the
    history: every such point when the result holds the sentinel, and as
    many of them as were asked for when it does not.  Values that are
    equal up to the list or tuple shape have the same canonical form
    whenever both canonical forms are hashable, and a list and a tuple
    of the same elements have one hashable canonical form exactly when
    those elements are hashable, that is hold no list. *)
Theorem seen_run_not_suggested_again rt :
  runtime_ok rt →
  (∀ runs sweep_config validate n rand out params run s,
     parameters sweep_config = Some params →
     NoDup (name <$> params) →
     grid_search_next_runs rt runs sweep_config validate n rand = Ok out →
     run ∈ runs → Some s ∈ out →
     seen_tuple (name <$> discrete_of params) s
     ≠ seen_tuple (name <$> discrete_of params) run)
  ∧ (∀ runs sweep_config validate n rand out params,
       parameters sweep_config = Some params →
       grid_search_next_runs rt runs sweep_config validate n rand = Ok out →
       (∀ s, Some s ∈ out →
             ∃ pt, pt ∈ product (grid_axes params)
                   ∧ s = suggested params pt
                   ∧ ∀ run, run ∈ runs →
                       seen_tuple (name <$> discrete_of params) run
                       ≠ Ok pt)
       ∧ (None ∈ out →
          ∀ pt, pt ∈ product (grid_axes params) →
                (∀ run, run ∈ runs →
                   seen_tuple (name <$> discrete_of params) run ≠ Ok pt) →
                Some (suggested params pt) ∈ out)
       ∧ (None ∉ out → length out = Z.to_nat n))
  ∧ (∀ a b,
       as_tuples a = as_tuples b →
       hashable (list_to_tuple a) = true →
       hashable (list_to_tuple b) = true →
       list_to_tuple a = list_to_tuple b)
  ∧ (∀ items,
       list_to_tuple (VList items) = list_to_tuple (VTuple items)
       ∧ hashable (list_to_tuple (VTuple items)) = true
       ↔ Forall (λ v, hashable v = true) items).
Proof.
  intros Hrt. split_and!.
  - intros runs sweep_config validate n rand out params run s
      Hp Hnd Hok Hrun Hs.
    destruct (suggestion_from_unseen _ _ _ _ _ _ _ _ Hrt Hok Hs)
      as (params' & seen & pt & Hreach & Hpt & ->).
    same_params Hreach Hp.
    destruct (hashable_unseen_point _ _ _ _ _ _ _ Hreach Hpt)
      as (_ & Hnot & Hlen & Hh).
    rewrite (seen_tuple_suggested _ _ Hnd Hlen Hh).
    destruct Hreach as (_ & _ & _ & _ & _ & Hseen & _).
    destruct (elem_of_mapM_result _ _ _ _ Hseen Hrun) as (t & Ht & ->).
    intros [= ->]. done.
  - intros runs sweep_config validate n rand out params Hp Hok.
    by apply (suggestions_characterized rt runs sweep_config validate n rand).
  - intros a b Hab Ha Hb.
    apply hashable_list_to_tuple_iff in Ha, Hb. congruence.
  - intros items. simpl. split.
    + intros [_ Hh]. by apply forallb_Forall_true.
    + intros Hh. split; [|by apply forallb_Forall_true].
      f_equal. apply fmap_id_Forall.
      eapply Forall_impl; [exact Hh|]. apply list_to_tuple_hashable_id.
Qed.

(** ** Canonical form and output form *)

Lemma suggested_holds_candidate rt runs sweep_config validate params seen pt p :
  reaches_grid rt runs sweep_config validate params seen →
  NoDup (name <$> params) →
  pt ∈ unseen params seen → p ∈ discrete_of params →
  ∃ v, v ∈ values p
       ∧ config (suggested params pt) !! name p
         = Some {["value" := tuple_to_list (list_to_tuple v)]}.
Proof.
  intros Hreach Hnd Hpt Hp.
  destruct (hashable_unseen_point _ _ _ _ _ _ _ Hreach Hpt)
    as (Hprod & _ & Hlen & _).
  apply list_elem_of_lookup in Hp as [i Hi].
  apply elem_of_product in Hprod.
  assert (grid_axes params !! i = Some (list_to_tuple <$> values p)) as Hax.
  { unfold grid_axes.
    by apply (list_lookup_fmap_Some_2 (λ p, list_to_tuple <$> values p)). }
  destruct (Forall2_lookup_r _ _ _ _ _ Hprod Hax) as (x & Hx & Hin).
  apply list_elem_of_fmap in Hin as (v & -> & Hv).
  exists v. split; [done|].
  by apply (suggested_lookup_discrete params pt i).
Qed.

(** C7, counterexample.  A tuple-shaped candidate comes back as a list. *)
Lemma tuple_candidate_returned_as_list :
  tuple_to_list (list_to_tuple (VTuple [VInt 2; VInt 3]))
  = VList [VInt 2; VInt 3]
  ∧ tuple_to_list (list_to_tuple (VTuple [VInt 2; VInt 3]))
    ≠ VTuple [VInt 2; VInt 3]
  ∧ grid_search_next_runs rt0 []
      (grid [categorical "v1" [VTuple [VInt 2; VInt 3]]]) false 1 false
    = Ok [Some (sweep_run [("v1", VList [VInt 2; VInt 3])])].
Proof.
  split_and!; [reflexivity | discriminate | vm_compute; reflexivity].
Qed.

(** C7, as amended.  For a value built from scalars and nested lists,
    without tuples, the canonical form is hashable and converting it back
    gives the value itself.  Every suggested run holds, for each
    categorical parameter, the form converted back from the canonical
    form of one of its candidates: the candidate itself when it holds no
    tuple. *)
Theorem canonical_form_reversed_at_output rt :
  runtime_ok rt →
  (∀ v, tuple_free v = true →
        tuple_to_list (list_to_tuple v) = v
        ∧ hashable (list_to_tuple v) = true)
  ∧ (∀ runs sweep_config validate n rand out params s p,
       parameters sweep_config = Some params →
       NoDup (name <$> params) →
       grid_search_next_runs rt runs sweep_config validate n rand = Ok out →
       Some s ∈ out → p ∈ params → type p = CATEGORICAL →
       ∃ v, v ∈ values p
            ∧ config s !! name p
              = Some {["value" := tuple_to_list (list_to_tuple v)]}
            ∧ (tuple_free v = true →
               config s !! name p = Some {["value" := v]})).
Proof.
  intros Hrt. split.
  - intros v Hv. split.
    + by apply tuple_to_list_list_to_tuple.
    + by apply hashable_list_to_tuple_of_tuple_free.
  - intros runs sweep_config validate n rand out params s p
      Hp Hnd Hok Hs Hin Hty.
    destruct (suggestion_from_unseen _ _ _ _ _ _ _ _ Hrt Hok Hs)
      as (params' & seen & pt & Hreach & Hpt & ->).
    same_params Hreach Hp.
    assert (p ∈ discrete_of params) as Hd by (by apply elem_of_discrete_of).
    destruct (suggested_holds_candidate _ _ _ _ _ _ _ _ Hreach Hnd Hpt Hd)
      as (v & Hv & Hl).
    exists v. split_and!; [done..|].
    intros Hf. by rewrite Hl, tuple_to_list_list_to_tuple.
Qed.

(** ** Constants in the output *)

(** X1. Every run suggested by [grid_search_next_runs] holds every
    constant with its fixed value. *)
Lemma constants_carried_by_next_runs rt runs sweep_config validate n rand
    out params s p :
  runtime_ok rt →
  parameters sweep_config = Some params →
  NoDup (name <$> params) →
  grid_search_next_runs rt runs sweep_config validate n rand = Ok out →
  Some s ∈ out → p ∈ params → type p = CONSTANT →
  config s !! name p = Some {["value" := value p]}.
Proof.
  intros Hrt Hp Hnd Hok Hs Hin Hty.
  destruct (suggestion_from_unseen _ _ _ _ _ _ _ _ Hrt Hok Hs)
    as (params' & seen & pt & Hreach & Hpt & ->).
  same_params Hreach Hp.
  by apply suggested_lookup_constant.
Qed.

(** X19. A run returned by [grid_search_next_run] holds categorical names
    only. *)
Lemma next_run_holds_categorical_names_only rt runs sweep_config rand
    params r nm :
  parameters sweep_config = Some params →
  grid_search_next_run rt runs sweep_config rand = Ok (Some r) →
  is_Some (run_config r !! nm) → nm ∈ name <$> discrete_of params.
Proof.
  intros Hp. unfold grid_search_next_run, SweepConfig.
  destruct (schema_conforms rt sweep_config); [|done].
  cbn [mbind result_bind]. rewrite Hp.
  destruct (check_types params) as [[]|e]; [|done]. cbn [mbind result_bind].
  destruct (py_set _) as [all|e]; [|done]. cbn [mbind result_bind].
  destruct (mapM _ runs) as [seen|e]; [|done]. cbn [mbind result_bind].
  destruct (py_set seen) as [pvs|e]; [|done]. cbn [mbind result_bind].
  destruct (if rand then _ else _) as [|first rest]; [done|].
  intros [= <-] [v Hv]. simpl in Hv.
  apply dict_of_pairs_lookup_Some in Hv.
  apply list_elem_of_lookup in Hv as [i Hi].
  apply lookup_zip_Some in Hi as [Hi _].
  by eapply list_elem_of_lookup_2.
Qed.

(** C4, at the failing input.  With the categorical [a] in {1, 2} and the
    constant [c] = 5, [grid_search_next_runs] suggests a run holding both,
    while the run of [grid_search_next_run] holds [a] alone. *)
Theorem constant_missing_from_single_suggestion :
  let sweep_config :=
    grid [categorical "a" [VInt 1; VInt 2]; constant "c" (VInt 5)] in
  grid_search_next_runs rt0 [] sweep_config false 1 false
  = Ok [Some (sweep_run [("a", VInt 1); ("c", VInt 5)])]
  ∧ grid_search_next_run rt0 [] sweep_config false
    = Ok (Some {| run_config := {["a" := VInt 1]} |})
  ∧ ({["a" := VInt 1]} : gmap string pyval) !! "c" = None.
Proof. split_and!; vm_compute; reflexivity. Qed.

(** ** Runs that miss a categorical key *)

Lemma length_filter_lt {A} (P : A → Prop) `{∀ x, Decision (P x)}
    (l : list A) x :
  x ∈ l → ¬ P x → (length (filter P l) < length l)%nat.
Proof.
  induction l as [|a l IH]; intros Hx Hnot.
  - by apply elem_of_nil in Hx.
  - rewrite filter_cons. pose proof (length_filter P l) as Hle.
    apply elem_of_cons in Hx as [->|Hx].
    + rewrite decide_False by done. simpl. lia.
    + specialize (IH Hx Hnot). destruct (decide (P a)); simpl; lia.
Qed.

Lemma length_mapM_result {A B} (f : A → result B) (l : list A) k :
  mapM f l = Ok k → length k = length l.
Proof. intros Hk. apply mapM_result_Ok in Hk. symmetry. by eapply Forall2_length. Qed.

(** The projection of a run that misses a key is shorter than every grid
    point, so it is none of them. *)
Lemma partial_projection_off_grid (params : list HyperParameter) run t nm :
  seen_tuple (name <$> discrete_of params) run = Ok t →
  nm ∈ name <$> discrete_of params → config run !! nm = None →
  (length t < length (name <$> discrete_of params))%nat
  ∧ t ∉ product (grid_axes params).
Proof.
  intros Ht Hnm Hmiss. unfold seen_tuple in Ht.
  apply length_mapM_result in Ht.
  assert (length t < length (name <$> discrete_of params))%nat as Hlt.
  { rewrite Ht. apply (length_filter_lt _ _ nm); [done|].
    rewrite Hmiss. by intros [? ?]. }
  split; [done|]. intros Hin. apply length_elem_of_product in Hin.
  unfold grid_axes in Hin. rewrite length_fmap in Hin.
  rewrite length_fmap in Hlt. lia.
Qed.

Lemma list_difference_ext {A} `{EqDecision A} (l k1 k2 : list A) :
  (∀ x, x ∈ l → (x ∈ k1 ↔ x ∈ k2)) →
  list_difference l k1 = list_difference l k2.
Proof.
  induction l as [|a l IH]; intros Hext; [done|]. simpl.
  rewrite IH by (intros x Hx; apply Hext; by right).
  destruct (decide_rel elem_of a k1) as [H1|H1],
           (decide_rel elem_of a k2) as [H2|H2]; try done.
  - destruct H2. apply Hext; [left|done].
  - destruct H1. apply Hext; [left|done].
Qed.

Lemma unseen_skip_off_grid (params : list HyperParameter) seen1 seen2 t :
  t ∉ product (grid_axes params) →
  unseen params (seen1 ++ t :: seen2) = unseen params (seen1 ++ seen2).
Proof.
  intros Ht. unfold unseen. apply list_difference_ext. intros x Hx.
  rewrite elem_of_remove_dups in Hx.
  rewrite !elem_of_remove_dups, !elem_of_app, elem_of_cons.
  split.
  - intros [?|[->|?]]; [by left|done|by right].
  - intros [?|?]; [by left|by right; right].
Qed.

Lemma mapM_result_middle {A B} (f : A → result B) (l1 l2 : list A) x k :
  mapM f (l1 ++ x :: l2) = Ok k
  ↔ ∃ k1 y k2, k = k1 ++ y :: k2 ∧ mapM f l1 = Ok k1 ∧ f x = Ok y
               ∧ mapM f l2 = Ok k2.
Proof.
  rewrite mapM_result_Ok. split.
  - intros H. apply Forall2_app_inv_l in H as (k1 & k' & H1 & H2 & ->).
    apply Forall2_cons_inv_l in H2 as (y & k2 & Hy & H2 & ->).
    exists k1, y, k2. by rewrite !mapM_result_Ok.
  - intros (k1 & y & k2 & -> & H1 & Hy & H2).
    rewrite mapM_result_Ok in H1, H2.
    apply Forall2_app; [done|]. by constructor.
Qed.

Lemma forallb_hashable_middle (seen1 seen2 : list point) t :
  forallb (forallb hashable) (seen1 ++ t :: seen2) = true
  ↔ forallb hashable t = true
    ∧ forallb (forallb hashable) (seen1 ++ seen2) = true.
Proof.
  rewrite !forallb_app. simpl. rewrite !andb_true_iff. tauto.
Qed.

(** Two sequences of the same unseen points give results of the same
    length, with the sentinel in both or in neither, and permutations of
    each other when the sentinel is there. *)
Lemma results_up_to_order (params : list HyperParameter) (n : Z)
    (R R' U : list point) :
  R ≡ₚ U → R' ≡ₚ U →
  let result (l : list point) : list (option SweepRun) :=
    ((Some ∘ suggested params)
       <$> take (Z.to_nat (Z.min n (Z.of_nat (length U)))) l)
    ++ (if bool_decide (n > Z.of_nat (length U)) then [None] else []) in
  length (result R') = length (result R)
  ∧ (None ∈ result R' ↔ None ∈ result R)
  ∧ (None ∈ result R → result R' ≡ₚ result R).
Proof.
  intros HR HR' result.
  assert (∀ l, None ∈ result l ↔ n > Z.of_nat (length U)) as Hsent.
  { intros l. unfold result. rewrite elem_of_app.
    case_bool_decide as Hgt; split.
    - done.
    - intros _. right. left.
    - intros [Hin|Hin]; [|by apply elem_of_nil in Hin].
      by apply list_elem_of_fmap in Hin as (pt & ? & _).
    - done. }
  split_and!.
  - unfold result. rewrite !length_app, !length_fmap, !length_take.
    by rewrite (Permutation_length HR), (Permutation_length HR').
  - by rewrite !Hsent.
  - intros Hnone. apply Hsent in Hnone. unfold result.
    rewrite Z.min_r, Nat2Z.id by lia.
    rewrite !take_ge
      by (by rewrite ?(Permutation_length HR), ?(Permutation_length HR')).
    by rewrite HR, HR'.
Qed.

(** X2. In [grid_search_next_runs] a run that misses a categorical key,
    and whose present values have a hashable canonical form, projects to
    no point of the grid and is never deduplicated.  The request succeeds
    with it in the history exactly when it succeeds without it, and the
    two results, each taken in its own iteration order, have the same
    length, hold the sentinel together, and are permutations of each
    other when they hold it; every run suggested with it is one that the
    history without it leaves to suggest. *)
Lemma partial_run_is_ignored rt rt' runs1 runs2 run sweep_config validate n
    rand rand' params t nm :
  runtime_ok rt → runtime_ok rt' →
  (validate = true →
   schema_conforms rt' sweep_config = schema_conforms rt sweep_config) →
  parameters sweep_config = Some params →
  seen_tuple (name <$> discrete_of params) run = Ok t →
  forallb hashable t = true →
  nm ∈ name <$> discrete_of params → config run !! nm = None →
  (∀ pt, pt ∈ product (grid_axes params) →
         seen_tuple (name <$> discrete_of params) run ≠ Ok pt)
  ∧ (∀ out,
       grid_search_next_runs rt (runs1 ++ run :: runs2) sweep_config validate
         n rand = Ok out →
       ∃ out',
         grid_search_next_runs rt' (runs1 ++ runs2) sweep_config validate n
           rand' = Ok out'
         ∧ length out' = length out
         ∧ (None ∈ out' ↔ None ∈ out)
         ∧ (None ∈ out → out' ≡ₚ out)
         ∧ ∀ s, Some s ∈ out →
             ∃ pt, pt ∈ product (grid_axes params)
                   ∧ s = suggested params pt
                   ∧ ∀ r, r ∈ runs1 ++ runs2 →
                       seen_tuple (name <$> discrete_of params) r ≠ Ok pt)
  ∧ (∀ out',
       grid_search_next_runs rt' (runs1 ++ runs2) sweep_config validate n
         rand' = Ok out' →
       ∃ out,
         grid_search_next_runs rt (runs1 ++ run :: runs2) sweep_config
           validate n rand = Ok out
         ∧ length out = length out'
         ∧ (None ∈ out ↔ None ∈ out')
         ∧ (None ∈ out' → out ≡ₚ out')).
Proof.
  intros Hrt Hrt' Hschema Hp Ht Hh Hnm Hmiss.
  destruct (partial_projection_off_grid _ _ _ _ Ht Hnm Hmiss) as [_ Hoff].
  split_and!.
  - intros pt Hpt Heq. rewrite Ht in Heq. injection Heq as ->. done.
  - intros out Hok.
    destruct (suggestions_characterized _ _ _ _ _ _ _ _ Hrt Hp Hok)
      as (Hsugg & _ & _).
    destruct (grid_search_next_runs_Ok_inv _ _ _ _ _ _ _ Hok)
      as (params' & seen & Hreach).
    same_params Hreach Hp.
    rewrite (grid_search_next_runs_reaches _ _ _ _ n rand _ _ Hrt Hreach)
      in Hok.
    destruct Hreach as (Hval & Hm & _ & Hty & Hgrid & Hseen & Hhash).
    apply mapM_result_middle in Hseen
      as (k1 & t' & k2 & -> & H1 & Ht' & H2).
    assert (t' = t) as -> by congruence.
    apply forallb_hashable_middle in Hhash as [_ Hhash].
    assert (reaches_grid rt' (runs1 ++ runs2) sweep_config validate params
              (k1 ++ k2)) as Hreach'.
    { split_and!; try done.
      - intros Hv. rewrite (Hschema Hv). by apply Hval.
      - by apply mapM_result_app. }
    rewrite (grid_search_next_runs_reaches _ _ _ _ n rand' _ _ Hrt' Hreach').
    eexists. split; [done|]. injection Hok as <-.
    rewrite (unseen_skip_off_grid _ k1 k2 _ Hoff) in Hsugg |- *.
    pose proof (remaining_sequence_perm rt params (k1 ++ t :: k2) rand Hrt)
      as HR.
    rewrite (unseen_skip_off_grid _ k1 k2 _ Hoff) in HR.
    pose proof (remaining_sequence_perm rt' params (k1 ++ k2) rand' Hrt')
      as HR'.
    destruct (results_up_to_order params n _ _ _ HR HR') as (Hl & Hs & Hperm).
    split_and!; try done.
    intros s Hs'. destruct (Hsugg s Hs') as (pt & Hpt & -> & Hnot).
    exists pt. split_and!; try done.
    intros r Hr. apply Hnot. apply elem_of_app in Hr as [Hr|Hr].
    + apply elem_of_app. by left.
    + apply elem_of_app. right. by right.
  - intros out' Hok.
    destruct (grid_search_next_runs_Ok_inv _ _ _ _ _ _ _ Hok)
      as (params' & seen & Hreach).
    same_params Hreach Hp.
    rewrite (grid_search_next_runs_reaches _ _ _ _ n rand' _ _ Hrt' Hreach)
      in Hok.
    destruct Hreach as (Hval & Hm & _ & Hty & Hgrid & Hseen & Hhash).
    apply mapM_result_Ok, Forall2_app_inv_l in Hseen
      as (k1 & k2 & H1 & H2 & ->).
    assert (reaches_grid rt (runs1 ++ run :: runs2) sweep_config validate
              params (k1 ++ t :: k2)) as Hreach'.
    { split_and!; try done.
      - intros Hv. rewrite <- (Hschema Hv). by apply Hval.
      - apply mapM_result_middle. exists k1, t, k2.
        by rewrite !mapM_result_Ok.
      - by apply forallb_hashable_middle. }
    rewrite (grid_search_next_runs_reaches _ _ _ _ n rand _ _ Hrt Hreach').
    eexists. split; [done|]. injection Hok as <-.
    rewrite (unseen_skip_off_grid _ k1 k2 _ Hoff).
    pose proof (remaining_sequence_perm rt params (k1 ++ t :: k2) rand Hrt)
      as HR.
    rewrite (unseen_skip_off_grid _ k1 k2 _ Hoff) in HR.
    pose proof (remaining_sequence_perm rt' params (k1 ++ k2) rand' Hrt')
      as HR'.
    by destruct (results_up_to_order params n _ _ _ HR' HR)
      as (Hl & Hs & Hperm).
Qed.

(** C8, at the failing input.  The observed run has no key [a].
    [grid_search_next_runs] projects it to the empty tuple and suggests
    [a] = 1; [grid_search_next_run] indexes the run's config with [a] and
    raises [KeyError]. *)
Theorem missing_key_raises_in_single_suggestion :
  let sweep_config := grid [categorical "a" [VInt 1; VInt 2]] in
  seen_tuple ["a"] (sweep_run []) = Ok []
  ∧ grid_search_next_runs rt0 [sweep_run []] sweep_config false 1 false
    = Ok [Some (sweep_run [("a", VInt 1)])]
  ∧ grid_search_next_run rt0 [{| run_config := ∅ |}] sweep_config false
    = Raise (KeyError "a").
Proof. split_and!; vm_compute; reflexivity. Qed.

(** ** The method field *)

(** C6, counterexample.  Without a [method] field
    [grid_search_next_runs] raises [KeyError]; the same description with
    the field set to the grid literal is served. *)
Lemma missing_method_raises_key_error :
  let params := [categorical "a" [VInt 1]] in
  grid_search_next_runs rt0 []
    {| method := None; parameters := Some params |} false 1 false
  = Raise (KeyError "method")
  ∧ grid_search_next_runs rt0 []
      {| method := Some "grid"; parameters := Some params |} false 1 false
    = Ok [Some (sweep_run [("a", VInt 1)])].
Proof. split; vm_compute; reflexivity. Qed.

(** C6, as amended.  [grid_search_next_runs] reads the [method] field
    unconditionally: a value other than the grid literal raises the
    [ValueError] of an invalid configuration, and an absent field raises
    [KeyError].  [grid_search_next_run] never reads the field: two
    descriptions that the schema accepts and that differ in [method]
    only get the same result. *)
Theorem method_field_handling rt runs single_runs sweep_config validate n
    rand :
  (validate = true → schema_conforms rt sweep_config = true) →
  (∀ m, method sweep_config = Some m → m ≠ "grid" →
        grid_search_next_runs rt runs sweep_config validate n rand
        = Raise (ValueError invalid_method_msg)
        ∧ ConfigurationError (ValueError invalid_method_msg))
  ∧ (method sweep_config = None →
     grid_search_next_runs rt runs sweep_config validate n rand
     = Raise (KeyError "method"))
  ∧ (∀ m', schema_conforms rt sweep_config = true →
           schema_conforms rt {| method := m';
                                 parameters := parameters sweep_config |}
           = true →
           grid_search_next_run rt single_runs
             {| method := m'; parameters := parameters sweep_config |} rand
           = grid_search_next_run rt single_runs sweep_config rand).
Proof.
  intros Hval.
  assert ((if validate then SweepConfig rt sweep_config else Ok sweep_config)
          = Ok sweep_config) as Hgate.
  { destruct validate; [|done]. unfold SweepConfig. by rewrite Hval. }
  split_and!.
  - intros m Hm Hne. split; [|by eexists].
    unfold grid_search_next_runs. rewrite Hgate.
    cbn [mbind result_bind]. rewrite Hm. cbn [mbind result_bind].
    by rewrite bool_decide_eq_true_2.
  - intros Hm. unfold grid_search_next_runs. rewrite Hgate.
    cbn [mbind result_bind]. by rewrite Hm.
  - intros m' H1 H2. unfold grid_search_next_run, SweepConfig.
    by rewrite H1, H2.
Qed.

(** ** The two functions side by side *)

(** C9, counterexample.  On a description without a [method] field, which
    the schema accepts, the single-suggestion function returns a run and
    the batch function raises [KeyError]. *)
Lemma single_and_batch_differ_without_method :
  let sweep_config :=
    {| method := None;
       parameters := Some [categorical "a" [VInt 1; VInt 2]] |} in
  grid_search_next_run rt0 [] sweep_config false
  = Ok (Some {| run_config := {["a" := VInt 1]} |})
  ∧ grid_search_next_runs rt0 [] sweep_config false 1 false
    = Raise (KeyError "method")
  ∧ ¬ same_suggestion
        (grid_search_next_run rt0 [] sweep_config false)
        (grid_search_next_runs rt0 [] sweep_config false 1 false).
Proof.
  assert (grid_search_next_run rt0 []
            {| method := None;
               parameters := Some [categorical "a" [VInt 1; VInt 2]] |} false
          = Ok (Some {| run_config := {["a" := VInt 1]} |})) as H1
    by (vm_compute; reflexivity).
  assert (grid_search_next_runs rt0 []
            {| method := None;
               parameters := Some [categorical "a" [VInt 1; VInt 2]] |}
            false 1 false
          = Raise (KeyError "method")) as H2
    by (vm_compute; reflexivity).
  split_and!; [exact H1 | exact H2 |].
  cbv zeta. rewrite H1, H2. simpl. tauto.
Qed.

Lemma Forall_filter_keep {A} (P Q : A → Prop) `{∀ x, Decision (Q x)}
    (l : list A) :
  Forall P l → Forall P (filter Q l).
Proof.
  rewrite !Forall_forall. intros HP x Hx.
  apply list_elem_of_filter in Hx as [_ Hx]. by apply HP.
Qed.

Lemma zip_fmap_snd {A B C} (f : B → C) (l : list A) (k : list B) :
  prod_map id f <$> zip l k = zip l (f <$> k).
Proof.
  revert k. induction l as [|x l IH]; intros [|y k]; simpl; try done.
  by rewrite IH.
Qed.

(** A run that holds a hashable value under every name projects to the
    same tuple in both functions. *)
Lemma both_projections (names : list string) (run : Run) :
  Forall (λ nm, ∃ v, run_config run !! nm = Some v ∧ hashable v = true)
         names →
  ∃ t, mapM (getitem (run_config run)) names = Ok t
       ∧ seen_tuple names (wrap_run run) = Ok t
       ∧ forallb hashable t = true.
Proof.
  intros Hall.
  exists ((λ nm, default VNone (run_config run !! nm)) <$> names).
  split_and!.
  - apply mapM_result_Ok, Forall2_fmap_r, Forall_Forall2_diag.
    eapply Forall_impl; [exact Hall|]. intros nm (v & Hv & _).
    unfold getitem, compose. rewrite Hv. reflexivity.
  - unfold seen_tuple. rewrite filter_Forall_id.
    + apply mapM_result_Ok, Forall2_fmap_r, Forall_Forall2_diag.
      eapply Forall_impl; [exact Hall|]. intros nm (v & Hv & Hh).
      unfold getitem, wrap_run, compose. simpl. rewrite lookup_fmap, Hv. simpl.
      cbn [mbind result_bind]. rewrite lookup_singleton_eq.
      cbn [mbind result_bind]. unfold mret, result_ret.
      by rewrite list_to_tuple_hashable_id.
    + eapply Forall_impl; [exact Hall|]. intros nm (v & Hv & _).
      unfold wrap_run. simpl. rewrite lookup_fmap, Hv. by eexists.
  - apply forallb_Forall_true, Forall_fmap.
    eapply Forall_impl; [exact Hall|]. intros nm (v & Hv & Hh).
    simpl. by rewrite Hv.
Qed.

Lemma both_histories (names : list string) (runs : list Run) :
  Forall (λ run,
            Forall (λ nm, ∃ v, run_config run !! nm = Some v
                               ∧ hashable v = true) names) runs →
  ∃ seen, mapM (λ run, mapM (getitem (run_config run)) names) runs = Ok seen
          ∧ mapM (seen_tuple names) (wrap_run <$> runs) = Ok seen
          ∧ forallb (forallb hashable) seen = true.
Proof.
  induction 1 as [|run runs Hrun _ (seen & H1 & H2 & H3)].
  - by exists [].
  - destruct (both_projections names run Hrun) as (t & Ht1 & Ht2 & Ht3).
    exists (t :: seen). rewrite fmap_cons, !mapM_result_cons.
    rewrite Ht1, Ht2, H1, H2. simpl. by rewrite Ht3, H3.
Qed.

Lemma grid_axes_raw_axes (params : list HyperParameter) :
  Forall (λ p, Forall (λ v, hashable v = true) (values p)) params →
  grid_axes params = raw_axes params.
Proof.
  intros Hparams. unfold grid_axes, raw_axes.
  apply (Forall_filter_keep _ (λ p, type p = CATEGORICAL)) in Hparams.
  fold (discrete_of params) in Hparams.
  induction Hparams as [|p dps Hh _ IH]; [done|].
  rewrite !fmap_cons, IH. f_equal. apply fmap_id_Forall.
  eapply Forall_impl; [exact Hh|]. apply list_to_tuple_hashable_id.
Qed.

(** C9, as amended.  On a description that the schema accepts, whose
    method is the grid literal, that has no constant parameter and whose
    candidates are hashable, and on a history whose runs hold a hashable
    value for every categorical parameter, the single-suggestion function
    returns what a batch of one returns: [None] for the sentinel, the same
    exception, or the run for the same grid point. *)
Theorem single_matches_batch_of_one rt runs sweep_config validate rand
    params :
  runtime_ok rt →
  schema_conforms rt sweep_config = true →
  method sweep_config = Some "grid" →
  parameters sweep_config = Some params →
  Forall (λ p, type p ≠ CONSTANT
               ∧ Forall (λ v, hashable v = true) (values p)) params →
  Forall (λ run,
            Forall (λ nm, ∃ v, run_config run !! nm = Some v
                               ∧ hashable v = true)
                   (name <$> discrete_of params)) runs →
  same_suggestion
    (grid_search_next_run rt runs sweep_config rand)
    (grid_search_next_runs rt (wrap_run <$> runs) sweep_config validate 1
       rand).
Proof.
  intros Hrt Hval Hm Hp Hparams Hruns.
  destruct (check_types params) as [[]|e] eqn:Hty.
  - (* every parameter is categorical *)
    assert (constants_of params = []) as Hconst.
    { unfold constants_of. clear -Hparams.
      induction Hparams as [|p params [Hp _] _ IH]; [done|].
      by rewrite filter_cons_False. }
    assert (grid_axes params = raw_axes params) as Haxes.
    { apply grid_axes_raw_axes.
      eapply Forall_impl; [exact Hparams|]. by intros p [_ ?]. }
    assert (forallb (forallb hashable) (product (raw_axes params)) = true)
      as Hgrid.
    { apply hashable_product. unfold raw_axes, discrete_of.
      apply Forall_fmap, Forall_filter_keep.
      eapply Forall_impl; [exact Hparams|]. by intros p [_ ?]. }
    destruct (both_histories _ _ Hruns) as (seen & Hs1 & Hs2 & Hs3).
    assert (reaches_grid_single rt runs sweep_config params seen) as Hsingle
      by done.
    assert (reaches_grid rt (wrap_run <$> runs) sweep_config validate params
              seen) as Hbatch.
    { split_and!; try done. by rewrite Haxes. }
    rewrite (grid_search_next_run_reaches _ _ _ rand _ _ Hsingle).
    rewrite (grid_search_next_runs_reaches _ _ _ _ 1 rand _ _ Hrt Hbatch).
    pose proof (remaining_sequence_perm rt params seen rand Hrt) as Hperm.
    assert (unseen_single params seen = unseen params seen) as ->
      by (unfold unseen_single, unseen; by rewrite Haxes).
    unfold remaining_sequence in *.
    rewrite <- (Permutation_length Hperm).
    destruct (if rand then _ else _) as [|first rest]; simpl.
    + done.
    + rewrite Z.min_l by lia. simpl.
      rewrite bool_decide_eq_false_2 by lia. simpl.
      unfold point_config. rewrite Hconst.
      change (to_config []) with (∅ : gmap string (gmap string pyval)).
      by rewrite (left_id_L ∅ (∪)), dict_of_pairs_fmap, zip_fmap_snd.
  - (* a parameter of an unsupported kind: the same exception *)
    assert (grid_search_next_run rt runs sweep_config rand = Raise e) as ->.
    { unfold grid_search_next_run, SweepConfig. rewrite Hval.
      cbn [mbind result_bind]. by rewrite Hp, Hty. }
    assert (grid_search_next_runs rt (wrap_run <$> runs) sweep_config
              validate 1 rand = Raise e) as ->.
    { unfold grid_search_next_runs, SweepConfig. rewrite Hval.
      assert ((if validate then Ok sweep_config else Ok sweep_config)
              = Ok sweep_config) as -> by (by destruct validate).
      cbn [mbind result_bind]. rewrite Hm. cbn [mbind result_bind].
      rewrite bool_decide_eq_false_2; [|intros H; apply H; reflexivity].
      by rewrite Hp, Hty. }
    done.
Qed.

(** ** Exhaustion after full coverage *)

(** X3. Once the projections of the history cover the whole product, a
    request for at least one run gets the sentinel alone. *)
Lemma covered_grid_is_exhausted rt runs sweep_config validate n rand
    params seen :
  runtime_ok rt →
  reaches_grid rt runs sweep_config validate params seen →
  (∀ pt, pt ∈ product (grid_axes params) → pt ∈ seen) →
  1 ≤ n →
  grid_search_next_runs rt runs sweep_config validate n rand = Ok [None].
Proof.
  intros Hrt Hreach Hcover Hn.
  rewrite (grid_search_next_runs_reaches _ _ _ _ n rand _ _ Hrt Hreach).
  assert (unseen params seen = []) as Hun.
  { destruct (unseen params seen) as [|pt l] eqn:Hun; [done|].
    assert (pt ∈ unseen params seen) as Hpt by (rewrite Hun; left).
    unfold unseen in Hpt.
    apply list_elem_of_difference in Hpt as [Hpt Hnot].
    rewrite elem_of_remove_dups in Hpt. rewrite elem_of_remove_dups in Hnot.
    destruct Hnot. by apply Hcover. }
  rewrite Hun. simpl. rewrite Z.min_r by lia. simpl.
  by rewrite bool_decide_eq_true_2 by lia.
Qed.

(** The scenarios of the test configuration: all six pairs on an empty
    history, and the last pair followed by the sentinel when five are
    observed and two are requested. *)
Example six_pairs_on_empty_history :
  grid_search_next_runs rt0 [] (grid two_params) false 6 false
  = Ok (Some <$> [sweep_run [("v1", VInt 1); ("v2", VInt 4)];
                  sweep_run [("v1", VInt 1); ("v2", VInt 5)];
                  sweep_run [("v1", VInt 2); ("v2", VInt 4)];
                  sweep_run [("v1", VInt 2); ("v2", VInt 5)];
                  sweep_run [("v1", VInt 3); ("v2", VInt 4)];
                  sweep_run [("v1", VInt 3); ("v2", VInt 5)]]).
Proof. vm_compute. reflexivity. Qed.

Example over_request_ends_with_sentinel :
  grid_search_next_runs rt0
    [sweep_run [("v1", VInt 1); ("v2", VInt 4)];
     sweep_run [("v1", VInt 1); ("v2", VInt 5)];
     sweep_run [("v1", VInt 2); ("v2", VInt 4)];
     sweep_run [("v1", VInt 2); ("v2", VInt 5)];
     sweep_run [("v1", VInt 3); ("v2", VInt 4)]]
    (grid two_params) false 2 false
  = Ok [Some (sweep_run [("v1", VInt 3); ("v2", VInt 5)]); None].
Proof. vm_compute. reflexivity. Qed.

(** * The theorems at concrete requests *)

Lemma full_grid_on_empty_history_witness :
  ∃ pts : list point,
    pts ≡ₚ product (grid_axes two_params)
    ∧ grid_search_next_runs rt0 [] (grid two_params) false
        (Z.of_nat (candidate_count_product two_params)) false
      = Ok ((Some ∘ suggested two_params) <$> pts)
    ∧ length pts = candidate_count_product two_params
    ∧ NoDup pts
    ∧ NoDup (suggested two_params <$> pts).
Proof.
  apply (full_grid_on_empty_history rt0 (grid two_params) false false
           two_params).
  - exact rt0_ok.
  - intros H. discriminate H.
  - reflexivity.
  - reflexivity.
  - repeat constructor.
  - apply (bool_decide_unpack _). vm_compute. exact I.
  - repeat constructor; apply (bool_decide_unpack _); vm_compute; exact I.
Defined.

Lemma seen_run_not_suggested_again_witness :
  seen_tuple (name <$> discrete_of [categorical "a" [VInt 1; VInt 2]])
             (sweep_run [("a", VInt 2)])
  ≠ seen_tuple (name <$> discrete_of [categorical "a" [VInt 1; VInt 2]])
               (sweep_run [("a", VInt 1)])
  ∧ Some (suggested [categorical "a" [VInt 1; VInt 2]] [VInt 2])
    ∈ [Some (sweep_run [("a", VInt 2)]); None]
  ∧ list_to_tuple (VList [VInt 1; VList [VInt 2]])
    = list_to_tuple (VTuple [VInt 1; VTuple [VInt 2]]).
Proof.
  destruct (seen_run_not_suggested_again rt0 rt0_ok) as (H1 & H2 & H3 & _).
  split_and!.
  - apply (H1 [sweep_run [("a", VInt 1)]]
              (grid [categorical "a" [VInt 1; VInt 2]]) false 1 false
              [Some (sweep_run [("a", VInt 2)])]).
    + reflexivity.
    + apply (bool_decide_unpack _). vm_compute. exact I.
    + vm_compute. reflexivity.
    + apply list_elem_of_here.
    + apply list_elem_of_here.
  - destruct (H2 [sweep_run [("a", VInt 1)]]
                 (grid [categorical "a" [VInt 1; VInt 2]]) false 2 false
                 [Some (sweep_run [("a", VInt 2)]); None]
                 [categorical "a" [VInt 1; VInt 2]]) as (_ & Hall & _).
    + reflexivity.
    + vm_compute. reflexivity.
    + apply Hall.
      * apply list_elem_of_further, list_elem_of_here.
      * apply (bool_decide_unpack _). vm_compute. exact I.
      * intros run Hrun. apply list_elem_of_singleton in Hrun as ->.
        vm_compute. discriminate.
  - apply H3; reflexivity.
Defined.

Lemma exhaustion_is_signaled_witness :
  grid_search_next_runs rt0 [sweep_run [("a", VInt 1)]]
    (grid [categorical "a" [VInt 1]]) false 1 false
  = Ok [None]
  ∧ grid_search_next_run rt0 [{| run_config := {["a" := VInt 1]} |}]
      (grid [categorical "a" [VInt 1]]) false
    = Ok None.
Proof.
  destruct (exhaustion_is_signaled rt0 false rt0_ok) as [H1 H2]. split.
  - destruct (H1 [sweep_run [("a", VInt 1)]]
                 (grid [categorical "a" [VInt 1]]) false 1
                 [categorical "a" [VInt 1]] [[VInt 1]])
      as (suggestions & _ & _ & Hnone).
    + split_and!; try reflexivity; intros H; discriminate H.
    + apply Hnone; [reflexivity | lia].
  - apply (H2 _ _ [categorical "a" [VInt 1]] [[VInt 1]]).
    + split_and!; reflexivity.
    + reflexivity.
Defined.

Lemma unsupported_kind_is_rejected_witness :
  grid_search_next_runs rt0 [] (grid [uniform "v1"; uniform "v2"])
    false 1 false
  = Raise (ValueError
             ("Parameter " +:+ "v1" +:+
              " is a disallowed type with grid search. Grid search requires all parameters to be categorical or constant"))
  ∧ grid_search_next_run rt0 [] (grid [uniform "v1"; uniform "v2"]) false
    = Raise (ValueError
               ("Parameter " +:+ "v1" +:+
                " is a disallowed type with grid search. Grid search requires all parameters to be categorical or constant")).
Proof.
  destruct (unsupported_kind_is_rejected rt0 [] []
              (grid [uniform "v1"; uniform "v2"]) false 1 false
              [uniform "v1"; uniform "v2"])
    as (p & msg & _ & _ & _ & (before & after & Hsplit & Hok) & -> & _ & _
        & Hruns & Hrun).
  - reflexivity.
  - apply Exists_cons_hd. split; discriminate.
  - assert (p = uniform "v1") as ->.
    { destruct before as [|q before]; simpl in Hsplit.
      - by injection Hsplit as <- _.
      - injection Hsplit as <- _. apply Forall_cons in Hok as [[Hq|Hq] _];
          discriminate Hq. }
    split.
    + apply Hruns; [intros H; discriminate H | reflexivity].
    + apply Hrun. reflexivity.
Defined.

Lemma method_field_handling_witness :
  grid_search_next_runs rt0 []
    {| method := Some "random";
       parameters := Some [categorical "a" [VInt 1]] |} false 1 false
  = Raise (ValueError invalid_method_msg).
Proof.
  destruct (method_field_handling rt0 [] []
              {| method := Some "random";
                 parameters := Some [categorical "a" [VInt 1]] |}
              false 1 false) as (Hmismatch & _ & _).
  - intros H. discriminate H.
  - apply (Hmismatch "random"); [reflexivity | discriminate].
Defined.

Lemma canonical_form_reversed_at_output_witness :
  (tuple_to_list (list_to_tuple (VList [VInt 3; VList [VInt 4]]))
   = VList [VInt 3; VList [VInt 4]]
   ∧ hashable (list_to_tuple (VList [VInt 3; VList [VInt 4]])) = true)
  ∧ ∃ v, v ∈ values (categorical "v1" [VList [VInt 3; VInt 4]])
         ∧ config (sweep_run [("v1", VList [VInt 3; VInt 4])])
             !! name (categorical "v1" [VList [VInt 3; VInt 4]])
           = Some {["value" := tuple_to_list (list_to_tuple v)]}
         ∧ (tuple_free v = true →
            config (sweep_run [("v1", VList [VInt 3; VInt 4])])
              !! name (categorical "v1" [VList [VInt 3; VInt 4]])
            = Some {["value" := v]}).
Proof.
  destruct (canonical_form_reversed_at_output rt0 rt0_ok) as [H1 H2]. split.
  - apply H1. reflexivity.
  - apply (H2 [] (grid [categorical "v1" [VList [VInt 3; VInt 4]]]) false 1
              false [Some (sweep_run [("v1", VList [VInt 3; VInt 4])])]
              [categorical "v1" [VList [VInt 3; VInt 4]]]).
    + reflexivity.
    + apply (bool_decide_unpack _). vm_compute. exact I.
    + vm_compute. reflexivity.
    + apply list_elem_of_here.
    + apply list_elem_of_here.
    + reflexivity.
Defined.

Lemma single_matches_batch_of_one_witness :
  same_suggestion
    (grid_search_next_run rt0 [{| run_config := {["a" := VInt 1]} |}]
       (grid [categorical "a" [VInt 1; VInt 2]]) false)
    (grid_search_next_runs rt0
       (wrap_run <$> [{| run_config := {["a" := VInt 1]} |}])
       (grid [categorical "a" [VInt 1; VInt 2]]) false 1 false).
Proof.
  apply (single_matches_batch_of_one rt0 _ _ false false
           [categorical "a" [VInt 1; VInt 2]]).
  - exact rt0_ok.
  - reflexivity.
  - reflexivity.
  - reflexivity.
  - repeat constructor; discriminate.
  - constructor; [|constructor].
    constructor; [|constructor].
    exists (VInt 1). split; reflexivity.
Defined.

Lemma constants_only_space_witness :
  product (grid_axes [constant "c" (VInt 5)]) = [[]]
  ∧ grid_search_next_runs rt0 [] (grid [constant "c" (VInt 5)]) false 1 false
    = Ok [Some {| config := to_config [constant "c" (VInt 5)] |}]
  ∧ ([sweep_run [("c", VInt 5)]] ≠ [] →
     Forall (λ run,
               seen_tuple (name <$> discrete_of [constant "c" (VInt 5)]) run
               = Ok [])
            [sweep_run [("c", VInt 5)]]
     ∧ grid_search_next_runs rt0 [sweep_run [("c", VInt 5)]]
         (grid [constant "c" (VInt 5)]) false 1 false
       = Ok [None]).
Proof.
  apply (constants_only_space rt0 [sweep_run [("c", VInt 5)]]
           (grid [constant "c" (VInt 5)]) false false
           [constant "c" (VInt 5)]).
  - exact rt0_ok.
  - intros H. discriminate H.
  - reflexivity.
  - reflexivity.
  - repeat constructor.
Defined.

Lemma constants_carried_by_next_runs_witness :
  config (sweep_run [("a", VInt 1); ("c", VInt 5)])
    !! name (constant "c" (VInt 5))
  = Some {["value" := value (constant "c" (VInt 5))]}.
Proof.
  apply (constants_carried_by_next_runs rt0 []
           (grid [categorical "a" [VInt 1; VInt 2]; constant "c" (VInt 5)])
           false 1 false
           [Some (sweep_run [("a", VInt 1); ("c", VInt 5)])]
           [categorical "a" [VInt 1; VInt 2]; constant "c" (VInt 5)]).
  - exact rt0_ok.
  - reflexivity.
  - apply (bool_decide_unpack _). vm_compute. exact I.
  - vm_compute. reflexivity.
  - apply list_elem_of_here.
  - apply list_elem_of_further, list_elem_of_here.
  - reflexivity.
Defined.

Lemma partial_run_is_ignored_witness :
  ∃ out',
    grid_search_next_runs rt1 ([] ++ [])
      (grid [categorical "a" [VInt 1; VInt 2]]) false 1 false = Ok out'
    ∧ length out' = length [Some (sweep_run [("a", VInt 1)])]
    ∧ (None ∈ out' ↔ None ∈ [Some (sweep_run [("a", VInt 1)])])
    ∧ (None ∈ [Some (sweep_run [("a", VInt 1)])] →
       out' ≡ₚ [Some (sweep_run [("a", VInt 1)])])
    ∧ ∀ s, Some s ∈ [Some (sweep_run [("a", VInt 1)])] →
        ∃ pt, pt ∈ product (grid_axes [categorical "a" [VInt 1; VInt 2]])
              ∧ s = suggested [categorical "a" [VInt 1; VInt 2]] pt
              ∧ ∀ r, r ∈ [] ++ [] →
                  seen_tuple
                    (name <$> discrete_of [categorical "a" [VInt 1; VInt 2]])
                    r
                  ≠ Ok pt.
Proof.
  destruct (partial_run_is_ignored rt0 rt1 [] []
              (sweep_run [("b", VInt 7)])
              (grid [categorical "a" [VInt 1; VInt 2]]) false 1 false false
              [categorical "a" [VInt 1; VInt 2]] [] "a")
    as (_ & Hwith & _).
  - exact rt0_ok.
  - exact rt1_ok.
  - reflexivity.
  - reflexivity.
  - reflexivity.
  - reflexivity.
  - apply list_elem_of_here.
  - vm_compute. reflexivity.
  - apply Hwith. vm_compute. reflexivity.
Defined.

Lemma covered_grid_is_exhausted_witness :
  grid_search_next_runs rt0
    [sweep_run [("a", VInt 2)]; sweep_run [("a", VInt 1)]]
    (grid [categorical "a" [VInt 1; VInt 2]]) false 3 false
  = Ok [None].
Proof.
  apply (covered_grid_is_exhausted rt0 _ _ false 3 false
           [categorical "a" [VInt 1; VInt 2]] [[VInt 2]; [VInt 1]]).
  - exact rt0_ok.
  - split_and!; try reflexivity; intros H; discriminate H.
  - intros pt Hpt. vm_compute in Hpt.
    apply elem_of_cons in Hpt as [->|Hpt]; [apply list_elem_of_further, list_elem_of_here|].
    apply list_elem_of_singleton in Hpt as ->. apply list_elem_of_here.
  - lia.
Defined.

(** * Further properties of the two functions *)

(** ** Shared facts *)

Lemma unseen_same_members (params : list HyperParameter) seen seen' :
  (∀ t, t ∈ seen ↔ t ∈ seen') → unseen params seen = unseen params seen'.
Proof.
  intros Hmem. unfold unseen. apply list_difference_ext. intros t _.
  by rewrite !elem_of_remove_dups.
Qed.

Lemma NoDup_unseen (params : list HyperParameter) seen :
  NoDup (unseen params seen).
Proof. apply NoDup_list_difference, NoDup_remove_dups. Qed.

Lemma unseen_nil_of_cover (params : list HyperParameter) seen :
  (∀ pt, pt ∈ product (grid_axes params) → pt ∈ seen) →
  unseen params seen = [].
Proof.
  intros Hcover. destruct (unseen params seen) as [|pt l] eqn:Hun; [done|].
  assert (pt ∈ unseen params seen) as Hpt by (rewrite Hun; left).
  unfold unseen in Hpt. apply list_elem_of_difference in Hpt as [Hpt Hnot].
  rewrite elem_of_remove_dups in Hpt. rewrite elem_of_remove_dups in Hnot.
  destruct Hnot. by apply Hcover.
Qed.

Lemma sentinel_alone_of_unseen_nil rt runs sweep_config validate n rand
    params seen :
  runtime_ok rt →
  reaches_grid rt runs sweep_config validate params seen →
  unseen params seen = [] → 1 ≤ n →
  grid_search_next_runs rt runs sweep_config validate n rand = Ok [None].
Proof.
  intros Hrt Hreach Hun Hn.
  rewrite (grid_search_next_runs_reaches _ _ _ _ n rand _ _ Hrt Hreach).
  rewrite Hun. simpl. rewrite Z.min_r by lia. simpl.
  by rewrite bool_decide_eq_true_2 by lia.
Qed.

Lemma elem_of_take_elem_of {A} (k : nat) (l : list A) x :
  x ∈ take k l → x ∈ l.
Proof.
  intros Hx. apply elem_of_take in Hx as (i & Hi & _).
  by eapply list_elem_of_lookup_2.
Qed.

(** The run of an unseen point determines the point. *)
Lemma suggested_inj_on_unseen rt runs sweep_config validate params seen
    pt1 pt2 :
  reaches_grid rt runs sweep_config validate params seen →
  NoDup (name <$> params) →
  pt1 ∈ unseen params seen → pt2 ∈ unseen params seen →
  suggested params pt1 = suggested params pt2 → pt1 = pt2.
Proof.
  intros Hreach Hnd H1 H2 Heq.
  destruct (hashable_unseen_point _ _ _ _ _ _ _ Hreach H1)
    as (_ & _ & Hl1 & Hh1).
  destruct (hashable_unseen_point _ _ _ _ _ _ _ Hreach H2)
    as (_ & _ & Hl2 & Hh2).
  pose proof (seen_tuple_suggested _ _ Hnd Hl1 Hh1) as Hb1.
  pose proof (seen_tuple_suggested _ _ Hnd Hl2 Hh2) as Hb2.
  rewrite Heq in Hb1. congruence.
Qed.

(** ** The parameters section *)

(** X4. A configuration without a [parameters] section is refused by both
    functions: neither returns, and once the earlier checks pass the
    exception is the [ValueError] that asks for the section. *)
Theorem missing_parameters_section rt runs single_runs sweep_config validate
    n rand :
  parameters sweep_config = None →
  (∃ e, grid_search_next_runs rt runs sweep_config validate n rand
        = Raise e)
  ∧ (∃ e, grid_search_next_run rt single_runs sweep_config rand = Raise e)
  ∧ ((validate = true → schema_conforms rt sweep_config = true) →
     method sweep_config = Some "grid" →
     grid_search_next_runs rt runs sweep_config validate n rand
     = Raise (ValueError missing_parameters_msg))
  ∧ (schema_conforms rt sweep_config = true →
     grid_search_next_run rt single_runs sweep_config rand
     = Raise (ValueError missing_parameters_msg)).
Proof.
  intros Hp. split_and!.
  - destruct (grid_search_next_runs rt runs sweep_config validate n rand)
      as [out|e] eqn:Hres; [|by exists e].
    apply grid_search_next_runs_Ok_inv in Hres
      as (params & seen & _ & _ & Hp' & _).
    congruence.
  - unfold grid_search_next_run, SweepConfig.
    destruct (schema_conforms rt sweep_config); cbn [mbind result_bind].
    + rewrite Hp. eauto.
    + eauto.
  - intros Hval Hm. unfold grid_search_next_runs.
    assert ((if validate then SweepConfig rt sweep_config else Ok sweep_config)
            = Ok sweep_config) as ->.
    { destruct validate; [|done]. unfold SweepConfig. by rewrite Hval. }
    cbn [mbind result_bind]. rewrite Hm. cbn [mbind result_bind].
    rewrite bool_decide_eq_false_2; [|intros H; apply H; reflexivity].
    by rewrite Hp.
  - intros Hval. unfold grid_search_next_run, SweepConfig.
    rewrite Hval. cbn [mbind result_bind]. by rewrite Hp.
Qed.

(** ** The size and the shape of a result *)

(** X5. A successful call never returns more items than were requested,
    the sentinel included, and a count below one returns the empty
    list. *)
Theorem result_never_longer_than_count rt runs sweep_config validate n rand
    out :
  runtime_ok rt →
  grid_search_next_runs rt runs sweep_config validate n rand = Ok out →
  (length out ≤ Z.to_nat n)%nat ∧ (n ≤ 0 → out = []).
Proof.
  intros Hrt Hok.
  destruct (grid_search_next_runs_Ok _ _ _ _ _ _ _ Hrt Hok)
    as (params & seen & Hreach & ->).
  pose proof (remaining_sequence_perm rt params seen rand Hrt) as Hperm.
  apply Permutation_length in Hperm.
  split.
  - rewrite length_app, length_fmap, length_take, Hperm.
    case_bool_decide; simpl; lia.
  - intros Hn. rewrite Z.min_l by lia.
    replace (Z.to_nat n) with 0%nat by lia. rewrite take_0.
    by rewrite bool_decide_eq_false_2 by lia.
Qed.

(** X6. The items of a successful result are pairwise distinct: no
    configuration is suggested twice in one call, and the sentinel
    appears at most once. *)
Theorem suggestions_pairwise_distinct rt runs sweep_config validate n rand
    out params :
  runtime_ok rt →
  parameters sweep_config = Some params →
  NoDup (name <$> params) →
  grid_search_next_runs rt runs sweep_config validate n rand = Ok out →
  NoDup out.
Proof.
  intros Hrt Hp Hnd Hok.
  destruct (grid_search_next_runs_Ok _ _ _ _ _ _ _ Hrt Hok)
    as (params' & seen & Hreach & ->).
  same_params Hreach Hp.
  pose proof (remaining_sequence_perm rt params seen rand Hrt) as Hperm.
  assert (NoDup (remaining_sequence rt params seen rand)) as HndR
    by (rewrite Hperm; apply NoDup_unseen).
  apply NoDup_app. split_and!.
  - apply NoDup_fmap_2_strong; [|by apply (sublist_NoDup _ _ HndR), sublist_take].
    intros pt1 pt2 H1 H2 [= Heq].
    apply elem_of_take_elem_of in H1, H2.
    rewrite Hperm in H1, H2.
    apply (suggested_inj_on_unseen _ _ _ _ _ _ _ _ Hreach Hnd H1 H2).
    unfold suggested. by rewrite Heq.
  - intros o Ho Hin. destruct (bool_decide _); [|by apply elem_of_nil in Hin].
    apply list_elem_of_singleton in Hin as ->.
    by apply list_elem_of_fmap in Ho as (pt & ? & _).
  - destruct (bool_decide _); [apply NoDup_singleton | apply NoDup_nil_2].
Qed.

Lemma dict_of_pairs_is_Some {V} (pairs : list (string * V)) k :
  is_Some (dict_of_pairs pairs !! k) ↔ k ∈ pairs.*1.
Proof.
  split.
  - intros [v Hv]. apply dict_of_pairs_lookup_Some in Hv.
    apply list_elem_of_fmap. by exists (k, v).
  - induction pairs as [|[k' v'] pairs IH] using rev_ind.
    + intros Hk. by apply elem_of_nil in Hk.
    + rewrite fmap_app, elem_of_app, dict_of_pairs_snoc, lookup_insert.
      simpl. intros [Hk|Hk].
      * case_decide; [by eexists | by apply IH].
      * apply list_elem_of_singleton in Hk as ->.
        rewrite decide_True by done. by eexists.
Qed.

(** X7. The keys of a suggested run are exactly the names of the
    parameters of the space: every categorical and every constant name,
    and nothing else. *)
Theorem suggestion_keys_are_parameter_names rt runs sweep_config validate n
    rand out params s nm :
  runtime_ok rt →
  parameters sweep_config = Some params →
  grid_search_next_runs rt runs sweep_config validate n rand = Ok out →
  Some s ∈ out →
  is_Some (config s !! nm) ↔ nm ∈ name <$> params.
Proof.
  intros Hrt Hp Hok Hs.
  destruct (suggestion_from_unseen _ _ _ _ _ _ _ _ Hrt Hok Hs)
    as (params' & seen & pt & Hreach & Hpt & ->).
  same_params Hreach Hp.
  destruct (hashable_unseen_point _ _ _ _ _ _ _ Hreach Hpt)
    as (_ & _ & Hlen & _).
  destruct Hreach as (_ & _ & _ & Hty & _). apply check_types_Ok in Hty.
  unfold suggested. simpl.
  rewrite lookup_union_is_Some, to_config_pairs. unfold point_config.
  rewrite !dict_of_pairs_is_Some, <- list_fmap_compose.
  rewrite fst_zip by (rewrite !length_fmap; lia).
  change (fst ∘ _) with name.
  rewrite !list_elem_of_fmap. split.
  - intros [(p & -> & Hin)|(p & -> & Hin)]; exists p; split; try done.
    + by apply elem_of_constants_of in Hin as [_ ?].
    + by apply elem_of_discrete_of in Hin as [_ ?].
  - intros (p & -> & Hin). rewrite Forall_forall in Hty.
    destruct (Hty p Hin) as [Hc|Hc]; [right|left]; exists p; split; try done.
    + by apply elem_of_discrete_of.
    + by apply elem_of_constants_of.
Qed.

(** ** Recording the suggestions *)

Lemma omap_id_fmap_Some {A B} (f : A → B) (l : list A) :
  omap id ((Some ∘ f) <$> l) = f <$> l.
Proof. induction l as [|x l IH]; [done|]. csimpl. by rewrite IH. Qed.

(** X8. After a call whose result ends with the sentinel, recording the
    suggested runs in the history exhausts the grid: every later request
    for at least one run returns the sentinel alone. *)
Theorem recorded_sweep_is_exhausted rt runs sweep_config validate n rand out
    params n' rand' :
  runtime_ok rt →
  parameters sweep_config = Some params →
  NoDup (name <$> params) →
  grid_search_next_runs rt runs sweep_config validate n rand = Ok out →
  None ∈ out → 1 ≤ n' →
  grid_search_next_runs rt (runs ++ omap id out) sweep_config validate n'
    rand'
  = Ok [None].
Proof.
  intros Hrt Hp Hnd Hok Hnone Hn'.
  destruct (grid_search_next_runs_Ok _ _ _ _ _ _ _ Hrt Hok)
    as (params' & seen & Hreach & ->).
  same_params Hreach Hp.
  pose proof (remaining_sequence_perm rt params seen rand Hrt) as Hperm.
  assert (n > Z.of_nat (length (unseen params seen))) as Hgt.
  { case_bool_decide as Hgt; [done|].
    rewrite app_nil_r in Hnone.
    by apply list_elem_of_fmap in Hnone as (pt & ? & _). }
  rewrite bool_decide_eq_true_2 by done.
  rewrite Z.min_r, Nat2Z.id by lia.
  rewrite take_ge by (by rewrite (Permutation_length Hperm)).
  rewrite omap_app, omap_id_fmap_Some. simpl. rewrite app_nil_r.
  set (R := remaining_sequence rt params seen rand) in *.
  assert (reaches_grid rt (runs ++ (suggested params <$> R)) sweep_config
            validate params (seen ++ R)) as Hreach'.
  { pose proof Hreach as (Hval & Hm & _ & Hty & Hgrid & Hseen & Hhash).
    split_and!; try done.
    - apply mapM_result_app; [done|].
      apply mapM_result_Ok, Forall2_fmap_l, Forall_Forall2_diag.
      apply Forall_forall. intros pt Hpt. rewrite Hperm in Hpt.
      destruct (hashable_unseen_point _ _ _ _ _ _ _ Hreach Hpt)
        as (_ & _ & Hl & Hh).
      by apply seen_tuple_suggested.
    - rewrite forallb_app, Hhash. simpl.
      apply forallb_Forall_true, Forall_forall. intros pt Hpt.
      rewrite Hperm in Hpt.
      by destruct (hashable_unseen_point _ _ _ _ _ _ _ Hreach Hpt)
        as (_ & _ & _ & Hh). }
  apply (sentinel_alone_of_unseen_nil _ _ _ _ _ _ _ _ Hrt Hreach');
    [|done].
  apply unseen_nil_of_cover. intros pt Hpt. apply elem_of_app.
  destruct (decide (pt ∈ seen)) as [Hin|Hout]; [by left|right].
  rewrite Hperm. unfold unseen.
  by rewrite list_elem_of_difference, !elem_of_remove_dups.
Qed.

(** ** The order flag and the order of the history *)

(** X9. Asking for a random order changes neither whether the call
    succeeds nor how many items it returns nor whether the sentinel is
    among them; when the sentinel is returned, the result is a
    permutation of the result in the default order. *)
Theorem randomize_order_only_permutes rt runs sweep_config validate n out :
  runtime_ok rt →
  grid_search_next_runs rt runs sweep_config validate n false = Ok out →
  ∃ out',
    grid_search_next_runs rt runs sweep_config validate n true = Ok out'
    ∧ length out' = length out
    ∧ (None ∈ out' ↔ None ∈ out)
    ∧ (None ∈ out → out' ≡ₚ out).
Proof.
  intros Hrt Hok.
  destruct (grid_search_next_runs_Ok _ _ _ _ _ _ _ Hrt Hok)
    as (params & seen & Hreach & ->).
  rewrite (grid_search_next_runs_reaches _ _ _ _ n true _ _ Hrt Hreach).
  eexists. split; [done|].
  pose proof (remaining_sequence_perm rt params seen true Hrt) as Ht.
  pose proof (remaining_sequence_perm rt params seen false Hrt) as Hf.
  assert (∀ l : list point,
            None ∈ ((Some ∘ suggested params) <$> l)
                   ++ (if bool_decide
                            (n > Z.of_nat (length (unseen params seen)))
                       then [None] else [])
            ↔ n > Z.of_nat (length (unseen params seen))) as Hsent.
  { intros l. rewrite elem_of_app. case_bool_decide as Hgt; split.
    - done.
    - intros _. right. left.
    - intros [Hin|Hin]; [|by apply elem_of_nil in Hin].
      by apply list_elem_of_fmap in Hin as (pt & ? & _).
    - done. }
  split_and!.
  - rewrite !length_app, !length_fmap, !length_take.
    by rewrite (Permutation_length Ht), (Permutation_length Hf).
  - by rewrite !Hsent.
  - intros Hnone. apply Hsent in Hnone.
    rewrite Z.min_r, Nat2Z.id by lia.
    rewrite !take_ge
      by (by rewrite ?(Permutation_length Ht), ?(Permutation_length Hf)).
    by rewrite Ht, Hf.
Qed.

Lemma mapM_result_same_members {A B} (f : A → result B) (l l' : list A) k :
  mapM f l = Ok k → (∀ x, x ∈ l ↔ x ∈ l') →
  ∃ k', mapM f l' = Ok k' ∧ (∀ y, y ∈ k ↔ y ∈ k').
Proof.
  intros Hk Hmem.
  assert (∀ l0 k0, mapM f l0 = Ok k0 →
            ∀ y, y ∈ k0 ↔ ∃ x, x ∈ l0 ∧ f x = Ok y) as Himg.
  { intros l0 k0 H0 y. apply mapM_result_Ok in H0. split.
    - intros Hy. apply list_elem_of_lookup in Hy as [i Hi].
      destruct (Forall2_lookup_r _ _ _ _ _ H0 Hi) as (x & Hx & Hf).
      exists x. split; [by eapply list_elem_of_lookup_2|done].
    - intros (x & Hx & Hf). apply list_elem_of_lookup in Hx as [i Hi].
      destruct (Forall2_lookup_l _ _ _ _ _ H0 Hi) as (y' & Hy' & Hf').
      assert (y' = y) as -> by congruence.
      by eapply list_elem_of_lookup_2. }
  assert (∃ k', mapM f l' = Ok k') as [k' Hk'].
  { assert (Forall (λ x, ∃ y, f x = Ok y) l') as Hall.
    { apply Forall_forall. intros x Hx. apply Hmem in Hx.
      destruct (elem_of_mapM_result _ _ _ _ Hk Hx) as (y & _ & Hy).
      by exists y. }
    clear -Hall. induction Hall as [|x l' [y Hy] _ [k' IH]].
    - by exists [].
    - exists (y :: k'). by rewrite mapM_result_cons, Hy, IH. }
  exists k'. split; [done|]. intros y.
  rewrite (Himg _ _ Hk), (Himg _ _ Hk'). by setoid_rewrite Hmem.
Qed.

(** X10. The history counts as a set of runs: a history with the same
    runs in another order, or with runs repeated, gets the same
    successful result. *)
Theorem history_is_a_set rt runs runs' sweep_config validate n rand out :
  runtime_ok rt →
  (∀ run, run ∈ runs ↔ run ∈ runs') →
  grid_search_next_runs rt runs sweep_config validate n rand = Ok out →
  grid_search_next_runs rt runs' sweep_config validate n rand = Ok out.
Proof.
  intros Hrt Hmem Hok.
  destruct (grid_search_next_runs_Ok_inv _ _ _ _ _ _ _ Hok)
    as (params & seen & Hreach).
  rewrite (grid_search_next_runs_reaches _ _ _ _ n rand _ _ Hrt Hreach)
    in Hok.
  destruct Hreach as (Hval & Hm & Hp & Hty & Hgrid & Hseen & Hhash).
  destruct (mapM_result_same_members _ _ _ _ Hseen Hmem)
    as (seen' & Hseen' & Hsame).
  assert (reaches_grid rt runs' sweep_config validate params seen')
    as Hreach'.
  { split_and!; try done.
    apply forallb_Forall_true, Forall_forall. intros t Ht.
    apply Hsame in Ht. apply forallb_Forall_true in Hhash.
    rewrite Forall_forall in Hhash. by apply Hhash. }
  rewrite (grid_search_next_runs_reaches _ _ _ _ n rand _ _ Hrt Hreach').
  rewrite <- Hok. unfold remaining_sequence.
  by rewrite (unseen_same_members params seen seen' Hsame).
Qed.

(** ** Unhashable candidates *)

Lemma product_inhabited (axes : list (list pyval)) :
  Forall (λ a, a ≠ []) axes → ∃ t, t ∈ product axes.
Proof.
  induction 1 as [|a axes Ha _ [t Ht]].
  - exists []. simpl. left.
  - destruct a as [|y a]; [done|]. exists (y :: t).
    apply elem_of_product. constructor; [left|by apply elem_of_product].
Qed.

(** A grid whose axes all hold a candidate has a point through every
    candidate. *)
Lemma product_point_through (axes : list (list pyval)) i axis x :
  Forall (λ a, a ≠ []) axes → axes !! i = Some axis → x ∈ axis →
  ∃ pt, pt ∈ product axes ∧ pt !! i = Some x.
Proof.
  intros Hne. revert i. induction Hne as [|a axes Ha Hne IH]; intros i Hi Hx.
  - by rewrite lookup_nil in Hi.
  - destruct i as [|i]; simpl in Hi.
    + injection Hi as ->. destruct (product_inhabited axes Hne) as [t0 Ht0].
      exists (x :: t0). split; [|done].
      apply elem_of_product. constructor; [done|by apply elem_of_product].
    + destruct (IH i Hi Hx) as (pt & Hpt & Hlook).
      destruct a as [|y a]; [done|]. exists (y :: pt). split; [|done].
      apply elem_of_product. constructor; [left|by apply elem_of_product].
Qed.

Lemma py_set_TypeError (items : list point) t :
  t ∈ items → forallb hashable t = false → py_set items = Raise TypeError.
Proof.
  intros Ht Hh. unfold py_set.
  destruct (forallb (forallb hashable) items) eqn:Hall; [|done].
  apply forallb_Forall_true in Hall. rewrite Forall_forall in Hall.
  rewrite (Hall t Ht) in Hh. done.
Qed.

Lemma forallb_false_of_elem (pt : point) i x :
  pt !! i = Some x → hashable x = false → forallb hashable pt = false.
Proof.
  intros Hi Hx. destruct (forallb hashable pt) eqn:Hall; [|done].
  apply forallb_Forall_true in Hall.
  eapply Forall_lookup_1 in Hall; [|exact Hi]. simpl in Hall. congruence.
Qed.

(** X12. In a space where every categorical parameter has a candidate, a
    candidate whose canonical form is unhashable makes
    [grid_search_next_runs] raise [TypeError]; [grid_search_next_run],
    which does not canonicalize, raises it for every unhashable
    candidate, a plain list included. *)
Theorem unhashable_candidate_raises rt params p v :
  Forall (λ q, type q = CATEGORICAL ∨ type q = CONSTANT) params →
  Forall (λ q, values q ≠ []) (discrete_of params) →
  p ∈ params → type p = CATEGORICAL → v ∈ values p →
  (hashable (list_to_tuple v) = false →
   ∀ runs sweep_config validate n rand,
     (validate = true → schema_conforms rt sweep_config = true) →
     method sweep_config = Some "grid" →
     parameters sweep_config = Some params →
     grid_search_next_runs rt runs sweep_config validate n rand
     = Raise TypeError)
  ∧ (hashable v = false →
     ∀ runs sweep_config rand,
       schema_conforms rt sweep_config = true →
       parameters sweep_config = Some params →
       grid_search_next_run rt runs sweep_config rand = Raise TypeError).
Proof.
  intros Hty Hne Hp Hcat Hv.
  assert (p ∈ discrete_of params) as Hd by (by apply elem_of_discrete_of).
  apply list_elem_of_lookup in Hd as [i Hi].
  apply check_types_Ok in Hty.
  split.
  - intros Hh runs sweep_config validate n rand Hval Hm Hparams.
    destruct (product_point_through (grid_axes params) i
                (list_to_tuple <$> values p) (list_to_tuple v))
      as (pt & Hpt & Hlook).
    { unfold grid_axes. apply Forall_fmap.
      eapply Forall_impl; [exact Hne|]. intros q Hq. unfold compose.
      simpl in Hq. destruct (values q); [done|].
      rewrite fmap_cons. discriminate. }
    { unfold grid_axes.
      by apply (list_lookup_fmap_Some_2 (λ p, list_to_tuple <$> values p)). }
    { by apply list_elem_of_fmap_2. }
    unfold grid_search_next_runs.
    assert ((if validate then SweepConfig rt sweep_config else Ok sweep_config)
            = Ok sweep_config) as ->.
    { destruct validate; [|done]. unfold SweepConfig. by rewrite Hval. }
    cbn [mbind result_bind]. rewrite Hm. cbn [mbind result_bind].
    rewrite bool_decide_eq_false_2; [|intros H; apply H; reflexivity].
    rewrite Hparams, Hty. cbn [mbind result_bind].
    change ((λ p : HyperParameter,
               elements_of (list_to_tuple (VList (values p))))
              <$> filter (λ p, type p = CATEGORICAL) params)
      with (grid_axes params).
    by rewrite (py_set_TypeError _ pt Hpt
                  (forallb_false_of_elem _ _ _ Hlook Hh)).
  - intros Hh runs sweep_config rand Hval Hparams.
    destruct (product_point_through (raw_axes params) i (values p) v)
      as (pt & Hpt & Hlook).
    { unfold raw_axes. by apply Forall_fmap. }
    { unfold raw_axes. by apply list_lookup_fmap_Some_2. }
    { done. }
    unfold grid_search_next_run, SweepConfig. rewrite Hval.
    cbn [mbind result_bind]. rewrite Hparams, Hty. cbn [mbind result_bind].
    change (values <$> filter (λ p, type p = CATEGORICAL) params)
      with (raw_axes params).
    by rewrite (py_set_TypeError _ pt Hpt
                  (forallb_false_of_elem _ _ _ Hlook Hh)).
Qed.

(** ** What is read from an observed run *)

Lemma seen_tuple_agree (names : list string) (r1 r2 : SweepRun) :
  (∀ nm, nm ∈ names → config r1 !! nm = config r2 !! nm) →
  seen_tuple names r1 = seen_tuple names r2.
Proof.
  unfold seen_tuple. induction names as [|nm names IH]; intros Hagree.
  - done.
  - rewrite !filter_cons, (Hagree nm) by left.
    assert (∀ nm', nm' ∈ names → config r1 !! nm' = config r2 !! nm')
      as Hrest by (intros nm' Hin; apply Hagree; by right).
    destruct (decide (is_Some (config r2 !! nm))); [|by apply IH].
    rewrite !mapM_result_cons, (IH Hrest). unfold getitem.
    by rewrite (Hagree nm) by left.
Qed.

Lemma mapM_result_middle_ext {A B} (f : A → result B) (l1 l2 : list A) x y :
  f x = f y → mapM f (l1 ++ x :: l2) = mapM f (l1 ++ y :: l2).
Proof.
  intros Hxy. induction l1 as [|a l1 IH]; simpl app.
  - by rewrite !mapM_result_cons, Hxy.
  - by rewrite !mapM_result_cons, IH.
Qed.

(** X13. An observed run is read on the categorical names only: two runs
    that agree on those names are interchangeable in the history,
    whatever else their configs hold (constants, keys that are not
    parameters), exceptions included. *)
Theorem observed_run_read_on_categorical_names rt runs1 runs2 r1 r2
    sweep_config validate n rand params :
  parameters sweep_config = Some params →
  (∀ nm, nm ∈ name <$> discrete_of params →
         config r1 !! nm = config r2 !! nm) →
  grid_search_next_runs rt (runs1 ++ r1 :: runs2) sweep_config validate n rand
  = grid_search_next_runs rt (runs1 ++ r2 :: runs2) sweep_config validate n
      rand.
Proof.
  intros Hp Hagree. unfold discrete_of in Hagree.
  unfold grid_search_next_runs.
  destruct (if validate then SweepConfig rt sweep_config else Ok sweep_config)
    as [c|e] eqn:Hc; [|done].
  assert (c = sweep_config) as ->.
  { unfold SweepConfig in Hc. destruct validate; [|congruence].
    destruct (schema_conforms rt sweep_config); congruence. }
  cbn [mbind result_bind].
  destruct (method sweep_config) as [m|]; [|done]. cbn [mbind result_bind].
  case_bool_decide; [done|]. rewrite Hp.
  destruct (check_types params) as [[]|e]; [|done]. cbn [mbind result_bind].
  destruct (py_set _) as [all|e]; [|done]. cbn [mbind result_bind].
  by rewrite (mapM_result_middle_ext _ runs1 runs2 r1 r2
                (seen_tuple_agree _ r1 r2 Hagree)).
Qed.

Lemma mapM_result_Raise_all {A B} (f : A → result B) (l : list A)
    (Q : exn → Prop) :
  (∀ x e, x ∈ l → f x = Raise e → Q e) →
  (∃ x, x ∈ l ∧ ∃ e, f x = Raise e) →
  ∃ e, mapM f l = Raise e ∧ Q e.
Proof.
  induction l as [|a l IH]; intros Hall (x & Hx & e & He).
  - by apply elem_of_nil in Hx.
  - rewrite mapM_result_cons. destruct (f a) as [y|e'] eqn:Ha.
    + apply elem_of_cons in Hx as [->|Hx]; [congruence|].
      destruct IH as (e'' & -> & HQ).
      * intros x' e' Hx' He'. apply (Hall x' e'); [by right|done].
      * by exists x; split; [|exists e].
      * by exists e''.
    + exists e'. split; [done|]. apply (Hall a e'); [left|done].
Qed.

Lemma mapM_result_Raise_inv {A B} (f : A → result B) (l : list A) e :
  mapM f l = Raise e → ∃ x, x ∈ l ∧ f x = Raise e.
Proof.
  induction l as [|a l IH]; [done|].
  rewrite mapM_result_cons. destruct (f a) as [y|e'] eqn:Ha.
  - destruct (mapM f l) as [k|e'] eqn:Hl; [done|].
    intros [= <-]. destruct (IH eq_refl) as (x & Hx & He).
    exists x. split; [by right|done].
  - intros [= <-]. exists a. split; [left|done].
Qed.

(** The projection of a run reads present entries only, so the one
    exception it can raise is the missing ['value'] key. *)
Lemma seen_tuple_Raise (names : list string) (run : SweepRun) e :
  seen_tuple names run = Raise e → e = KeyError "value".
Proof.
  unfold seen_tuple. intros He.
  apply mapM_result_Raise_inv in He as (nm & Hnm & He).
  apply list_elem_of_filter in Hnm as [[d Hd] _].
  unfold getitem in He. rewrite Hd in He. cbn [mbind result_bind] in He.
  destruct (d !! "value"); [done|]. cbn [mbind result_bind] in He.
  congruence.
Qed.

Lemma seen_tuple_without_value (names : list string) (run : SweepRun)
    nm entry :
  nm ∈ names → config run !! nm = Some entry → entry !! "value" = None →
  seen_tuple names run = Raise (KeyError "value").
Proof.
  intros Hnm Hentry Hvalue.
  destruct (seen_tuple names run) as [k|e] eqn:Hk.
  - unfold seen_tuple in Hk.
    assert (nm ∈ filter (λ name, is_Some (config run !! name)) names) as Hin.
    { apply list_elem_of_filter. split; [by rewrite Hentry|done]. }
    destruct (elem_of_mapM_result _ _ _ _ Hk Hin) as (y & _ & Hy).
    unfold getitem in Hy. rewrite Hentry in Hy.
    cbn [mbind result_bind] in Hy. by rewrite Hvalue in Hy.
  - by rewrite (seen_tuple_Raise _ _ _ Hk).
Qed.

(** X14. An observed run whose entry under a categorical name has no
    ['value'] key makes [grid_search_next_runs] raise
    [KeyError('value')], once the grid itself has been built. *)
Theorem observed_entry_without_value_raises rt runs sweep_config validate n
    rand params run nm entry :
  (validate = true → schema_conforms rt sweep_config = true) →
  method sweep_config = Some "grid" →
  parameters sweep_config = Some params →
  Forall (λ p, type p = CATEGORICAL ∨ type p = CONSTANT) params →
  forallb (forallb hashable) (product (grid_axes params)) = true →
  run ∈ runs → nm ∈ name <$> discrete_of params →
  config run !! nm = Some entry → entry !! "value" = None →
  grid_search_next_runs rt runs sweep_config validate n rand
  = Raise (KeyError "value").
Proof.
  intros Hval Hm Hp Hty Hgrid Hrun Hnm Hentry Hvalue.
  apply check_types_Ok in Hty.
  destruct (mapM_result_Raise_all
              (seen_tuple (name <$> discrete_of params)) runs
              (λ e, e = KeyError "value")) as (e & Hseen & ->).
  { intros r e _. apply seen_tuple_Raise. }
  { exists run. split; [done|]. exists (KeyError "value").
    by apply (seen_tuple_without_value _ _ nm entry). }
  unfold grid_search_next_runs.
  assert ((if validate then SweepConfig rt sweep_config else Ok sweep_config)
          = Ok sweep_config) as ->.
  { destruct validate; [|done]. unfold SweepConfig. by rewrite Hval. }
  cbn [mbind result_bind]. rewrite Hm. cbn [mbind result_bind].
  rewrite bool_decide_eq_false_2; [|intros H; apply H; reflexivity].
  rewrite Hp, Hty. cbn [mbind result_bind].
  change ((λ p : HyperParameter, elements_of (list_to_tuple (VList (values p))))
            <$> filter (λ p, type p = CATEGORICAL) params)
    with (grid_axes params).
  rewrite (py_set_Ok _ Hgrid). cbn [mbind result_bind].
  change (filter (λ p, type p = CATEGORICAL) params) with (discrete_of params).
  by rewrite Hseen.
Qed.

(** ** The two conversions *)

Lemma tuple_free_tuple_to_list v :
  hashable v = true → tuple_free (tuple_to_list v) = true.
Proof.
  induction v as [| | |items IH|items IH] using pyval_ind_nested;
    simpl; intros Hh; try done.
  apply forallb_Forall_true, Forall_fmap.
  apply forallb_Forall_true in Hh.
  induction IH as [|x l Hx _ IHl]; [constructor|].
  apply Forall_cons in Hh as [Hhx Hhl]. constructor; [apply Hx, Hhx | auto].
Qed.

(** X15. On a hashable value, that is on every canonical form that enters
    a set, [tuple_to_list] is undone by [list_to_tuple], and what it
    returns holds no tuple. *)
Theorem canonical_round_trip (c : pyval) :
  hashable c = true →
  list_to_tuple (tuple_to_list c) = c
  ∧ tuple_free (tuple_to_list c) = true
  ∧ hashable (list_to_tuple (tuple_to_list c)) = true.
Proof.
  intros Hc. rewrite (list_to_tuple_tuple_to_list c Hc).
  split_and!; [done | by apply tuple_free_tuple_to_list | done].
Qed.

Lemma tuple_to_list_as_tuples v : tuple_to_list (as_tuples v) = as_lists v.
Proof.
  induction v as [| | |items IH|items IH] using pyval_ind_nested;
    simpl; try done.
  all: f_equal; rewrite <- list_fmap_compose.
  all: induction IH as [|x l Hx _ IHl]; [done|].
  all: rewrite !fmap_cons; f_equal; [exact Hx | exact IHl].
Qed.

(** X16. Whenever the canonical form of a candidate is hashable, the form
    handed back to the caller is the candidate with every tuple, at
    every depth, turned into a list; canonicalizing that form again gives
    the same canonical form. *)
Theorem returned_form_is_all_lists (v : pyval) :
  hashable (list_to_tuple v) = true →
  tuple_to_list (list_to_tuple v) = as_lists v
  ∧ list_to_tuple (as_lists v) = list_to_tuple v.
Proof.
  intros Hh. pose proof Hh as Heq. apply hashable_list_to_tuple_iff in Heq.
  assert (tuple_to_list (list_to_tuple v) = as_lists v) as Hback
    by (by rewrite Heq, tuple_to_list_as_tuples).
  split; [done|].
  rewrite <- Hback. by apply list_to_tuple_tuple_to_list.
Qed.

(** ** [grid_search_next_run] on its own *)

Lemma grid_search_next_run_Ok_inv rt runs sweep_config rand o :
  grid_search_next_run rt runs sweep_config rand = Ok o →
  ∃ params seen, reaches_grid_single rt runs sweep_config params seen.
Proof.
  unfold grid_search_next_run, SweepConfig, reaches_grid_single.
  destruct (schema_conforms rt sweep_config); [|done].
  cbn [mbind result_bind].
  destruct (parameters sweep_config) as [params|]; [|done].
  destruct (check_types params) as [[]|e] eqn:Hty; [|done].
  cbn [mbind result_bind].
  change (values <$> filter (λ p, type p = CATEGORICAL) params)
    with (raw_axes params).
  destruct (py_set (product (raw_axes params))) as [all|e] eqn:Hall; [|done].
  apply py_set_inv in Hall as [Hgrid ->]. cbn [mbind result_bind].
  change (filter (λ p, type p = CATEGORICAL) params) with (discrete_of params).
  destruct (mapM _ runs) as [seen|e] eqn:Hseen; [|done].
  cbn [mbind result_bind].
  destruct (py_set seen) as [pvs|e] eqn:Hpvs; [|done].
  apply py_set_inv in Hpvs as [Hhash ->].
  intros _. exists params, seen. done.
Qed.

Lemma getitem_dict_of_zip (names : list string) (pt : point) :
  NoDup names → length pt = length names →
  mapM (getitem (dict_of_pairs (zip names pt))) names = Ok pt.
Proof.
  intros Hnd Hlen. apply mapM_result_Ok, Forall2_same_length_lookup_2.
  - done.
  - intros i nm v Hnm Hv. unfold getitem.
    rewrite (dict_of_pairs_lookup_NoDup _ nm v); [done| |].
    + by rewrite fst_zip by lia.
    + apply list_elem_of_lookup. exists i. by apply lookup_zip_Some.
Qed.

(** X17. The run that [grid_search_next_run] returns is a point of the
    grid, and its assignment to the categorical names differs from the
    assignment of every run of the history. *)
Theorem single_suggestion_is_unseen rt runs sweep_config rand params r :
  runtime_ok rt →
  parameters sweep_config = Some params →
  NoDup (name <$> params) →
  grid_search_next_run rt runs sweep_config rand = Ok (Some r) →
  (∃ pt, pt ∈ product (raw_axes params)
         ∧ mapM (getitem (run_config r)) (name <$> discrete_of params)
           = Ok pt)
  ∧ (∀ run, run ∈ runs →
       mapM (getitem (run_config run)) (name <$> discrete_of params)
       ≠ mapM (getitem (run_config r)) (name <$> discrete_of params)).
Proof.
  intros [Hord Hshuf] Hp Hnd Hok.
  destruct (grid_search_next_run_Ok_inv _ _ _ _ _ Hok)
    as (params' & seen & Hreach).
  assert (params' = params) as ->.
  { destruct Hreach as (_ & Hp' & _). congruence. }
  rewrite (grid_search_next_run_reaches _ _ _ rand _ _ Hreach) in Hok.
  destruct Hreach as (_ & _ & _ & _ & Hseen & _).
  set (R := if rand
            then shuffle rt (set_order rt (unseen_single params seen))
            else set_order rt (unseen_single params seen)) in *.
  assert (R ≡ₚ unseen_single params seen) as Hperm.
  { unfold R. destruct rand; [rewrite Hshuf|]; apply Hord. }
  destruct R as [|first rest]; [done|].
  injection Hok as <-. simpl.
  assert (first ∈ unseen_single params seen) as Hfirst
    by (rewrite <- Hperm; left).
  unfold unseen_single in Hfirst.
  apply list_elem_of_difference in Hfirst as [Hgrid Hnot].
  rewrite elem_of_remove_dups in Hgrid. rewrite elem_of_remove_dups in Hnot.
  assert (mapM (getitem (dict_of_pairs
                           (zip (name <$> discrete_of params) first)))
               (name <$> discrete_of params) = Ok first) as Hback.
  { apply getitem_dict_of_zip.
    - by apply NoDup_names_filter.
    - apply length_elem_of_product in Hgrid. unfold raw_axes in Hgrid.
      by rewrite !length_fmap in *. }
  split.
  - by exists first.
  - intros run Hrun. rewrite Hback.
    destruct (elem_of_mapM_result _ _ _ _ Hseen Hrun) as (t & Ht & ->).
    intros [= ->]. done.
Qed.

(** X18. A run of the history that lacks a categorical name makes
    [grid_search_next_run] raise [KeyError] for a categorical name, once
    the grid itself has been built. *)
Theorem single_suggestion_needs_every_key rt runs sweep_config rand params
    run nm :
  schema_conforms rt sweep_config = true →
  parameters sweep_config = Some params →
  Forall (λ p, type p = CATEGORICAL ∨ type p = CONSTANT) params →
  forallb (forallb hashable) (product (raw_axes params)) = true →
  run ∈ runs → nm ∈ name <$> discrete_of params →
  run_config run !! nm = None →
  ∃ nm', nm' ∈ name <$> discrete_of params
         ∧ grid_search_next_run rt runs sweep_config rand
           = Raise (KeyError nm').
Proof.
  intros Hval Hp Hty Hgrid Hrun Hnm Hmiss.
  apply check_types_Ok in Hty.
  set (names := name <$> discrete_of params) in *.
  assert (∀ r e, mapM (getitem (run_config r)) names = Raise e →
                 ∃ nm', nm' ∈ names ∧ e = KeyError nm') as Hinner.
  { intros r e He. apply mapM_result_Raise_inv in He as (nm' & Hin & He).
    exists nm'. split; [done|]. unfold getitem in He.
    destruct (run_config r !! nm'); congruence. }
  destruct (mapM_result_Raise_all
              (λ r, mapM (getitem (run_config r)) names) runs
              (λ e, ∃ nm', nm' ∈ names ∧ e = KeyError nm'))
    as (e & Hseen & nm' & Hnm' & ->).
  { intros r e _. apply Hinner. }
  { exists run. split; [done|].
    destruct (mapM (getitem (run_config run)) names) as [k|e] eqn:Hk;
      [|by exists e].
    destruct (elem_of_mapM_result _ _ _ _ Hk Hnm) as (y & _ & Hy).
    unfold getitem in Hy. by rewrite Hmiss in Hy. }
  exists nm'. split; [done|].
  unfold grid_search_next_run, SweepConfig. rewrite Hval.
  cbn [mbind result_bind]. rewrite Hp, Hty. cbn [mbind result_bind].
  change (values <$> filter (λ p, type p = CATEGORICAL) params)
    with (raw_axes params).
  rewrite (py_set_Ok _ Hgrid). cbn [mbind result_bind].
  change (filter (λ p, type p = CATEGORICAL) params) with (discrete_of params).
  fold names. by rewrite Hseen.
Qed.

(** * The further properties at concrete requests *)

Lemma missing_parameters_section_witness :
  grid_search_next_runs rt0 []
    {| method := Some "grid"; parameters := None |} false 1 false
  = Raise (ValueError missing_parameters_msg)
  ∧ grid_search_next_run rt0 []
      {| method := Some "grid"; parameters := None |} false
    = Raise (ValueError missing_parameters_msg).
Proof.
  destruct (missing_parameters_section rt0 [] []
              {| method := Some "grid"; parameters := None |} false 1 false)
    as (_ & _ & Hruns & Hrun).
  - reflexivity.
  - split.
    + apply Hruns; [intros H; discriminate H | reflexivity].
    + apply Hrun. reflexivity.
Defined.

Lemma result_never_longer_than_count_witness :
  (length [Some (sweep_run [("a", VInt 1)]); None] ≤ Z.to_nat 3)%nat
  ∧ (3 ≤ 0 → [Some (sweep_run [("a", VInt 1)]); None] = []).
Proof.
  apply (result_never_longer_than_count rt0 []
           (grid [categorical "a" [VInt 1]]) false 3 false).
  - exact rt0_ok.
  - vm_compute. reflexivity.
Defined.

Lemma suggestions_pairwise_distinct_witness :
  NoDup [Some (sweep_run [("a", VInt 1)]);
         Some (sweep_run [("a", VInt 2)]); None].
Proof.
  apply (suggestions_pairwise_distinct rt0 []
           (grid [categorical "a" [VInt 1; VInt 2]]) false 3 false _
           [categorical "a" [VInt 1; VInt 2]]).
  - exact rt0_ok.
  - reflexivity.
  - apply (bool_decide_unpack _). vm_compute. exact I.
  - vm_compute. reflexivity.
Defined.

Lemma suggestion_keys_are_parameter_names_witness :
  is_Some (config (sweep_run [("a", VInt 1); ("c", VInt 5)]) !! "c")
  ↔ "c" ∈ name <$> [categorical "a" [VInt 1; VInt 2]; constant "c" (VInt 5)].
Proof.
  apply (suggestion_keys_are_parameter_names rt0 []
           (grid [categorical "a" [VInt 1; VInt 2]; constant "c" (VInt 5)])
           false 1 false
           [Some (sweep_run [("a", VInt 1); ("c", VInt 5)])]).
  - exact rt0_ok.
  - reflexivity.
  - vm_compute. reflexivity.
  - apply list_elem_of_here.
Defined.

Lemma recorded_sweep_is_exhausted_witness :
  grid_search_next_runs rt0
    ([] ++ omap id [Some (sweep_run [("a", VInt 1)]);
                    Some (sweep_run [("a", VInt 2)]); None])
    (grid [categorical "a" [VInt 1; VInt 2]]) false 1 true
  = Ok [None].
Proof.
  apply (recorded_sweep_is_exhausted rt0 []
           (grid [categorical "a" [VInt 1; VInt 2]]) false 3 false _
           [categorical "a" [VInt 1; VInt 2]]).
  - exact rt0_ok.
  - reflexivity.
  - apply (bool_decide_unpack _). vm_compute. exact I.
  - vm_compute. reflexivity.
  - apply list_elem_of_further, list_elem_of_further, list_elem_of_here.
  - lia.
Defined.

Lemma randomize_order_only_permutes_witness :
  ∃ out',
    grid_search_next_runs rt0 [] (grid [categorical "a" [VInt 1; VInt 2]])
      false 3 true = Ok out'
    ∧ length out'
      = length [Some (sweep_run [("a", VInt 1)]);
                Some (sweep_run [("a", VInt 2)]); None]
    ∧ (None ∈ out'
       ↔ None ∈ [Some (sweep_run [("a", VInt 1)]);
                 Some (sweep_run [("a", VInt 2)]); None])
    ∧ (None ∈ [Some (sweep_run [("a", VInt 1)]);
               Some (sweep_run [("a", VInt 2)]); None] →
       out' ≡ₚ [Some (sweep_run [("a", VInt 1)]);
                Some (sweep_run [("a", VInt 2)]); None]).
Proof.
  apply (randomize_order_only_permutes rt0 []
           (grid [categorical "a" [VInt 1; VInt 2]]) false 3).
  - exact rt0_ok.
  - vm_compute. reflexivity.
Defined.

Lemma history_is_a_set_witness :
  grid_search_next_runs rt0
    [sweep_run [("a", VInt 2)]; sweep_run [("a", VInt 3)];
     sweep_run [("a", VInt 2)]]
    (grid [categorical "a" [VInt 1; VInt 2; VInt 3]]) false 1 false
  = Ok [Some (sweep_run [("a", VInt 1)])].
Proof.
  apply (history_is_a_set rt0
           [sweep_run [("a", VInt 3)]; sweep_run [("a", VInt 2)]]).
  - exact rt0_ok.
  - intros run. rewrite !elem_of_cons, !elem_of_nil. tauto.
  - vm_compute. reflexivity.
Defined.

Lemma unhashable_candidate_raises_witness :
  grid_search_next_runs rt0 []
    (grid [categorical "a" [VTuple [VList [VInt 1]]]]) false 1 false
  = Raise TypeError
  ∧ grid_search_next_run rt0 []
      (grid [categorical "a" [VTuple [VList [VInt 1]]]]) false
    = Raise TypeError.
Proof.
  destruct (unhashable_candidate_raises rt0
              [categorical "a" [VTuple [VList [VInt 1]]]]
              (categorical "a" [VTuple [VList [VInt 1]]])
              (VTuple [VList [VInt 1]])) as [Hruns Hrun].
  - repeat constructor.
  - repeat constructor. discriminate.
  - apply list_elem_of_here.
  - reflexivity.
  - apply list_elem_of_here.
  - split.
    + apply Hruns; [reflexivity | intros H; discriminate H | reflexivity
                   | reflexivity].
    + apply Hrun; reflexivity.
Defined.

Lemma observed_run_read_on_categorical_names_witness :
  grid_search_next_runs rt0
    ([] ++ sweep_run [("a", VInt 1); ("c", VInt 5)] :: [])
    (grid [categorical "a" [VInt 1; VInt 2]; constant "c" (VInt 5)])
    false 1 false
  = grid_search_next_runs rt0
      ([] ++ sweep_run [("a", VInt 1); ("other", VInt 7)] :: [])
      (grid [categorical "a" [VInt 1; VInt 2]; constant "c" (VInt 5)])
      false 1 false.
Proof.
  apply (observed_run_read_on_categorical_names rt0 [] [] _ _ _ false 1 false
           [categorical "a" [VInt 1; VInt 2]; constant "c" (VInt 5)]).
  - reflexivity.
  - intros nm Hnm. vm_compute in Hnm.
    apply list_elem_of_singleton in Hnm as ->. vm_compute. reflexivity.
Defined.

Lemma observed_entry_without_value_raises_witness :
  grid_search_next_runs rt0 [{| config := {["a" := ∅]} |}]
    (grid [categorical "a" [VInt 1; VInt 2]]) false 1 false
  = Raise (KeyError "value").
Proof.
  apply (observed_entry_without_value_raises rt0 _ _ false 1 false
           [categorical "a" [VInt 1; VInt 2]]
           {| config := {["a" := ∅]} |} "a" ∅).
  - intros H. discriminate H.
  - reflexivity.
  - reflexivity.
  - repeat constructor.
  - reflexivity.
  - apply list_elem_of_here.
  - apply list_elem_of_here.
  - vm_compute. reflexivity.
  - reflexivity.
Defined.

Lemma canonical_round_trip_witness :
  list_to_tuple (tuple_to_list (VTuple [VInt 1; VTuple [VInt 2]]))
  = VTuple [VInt 1; VTuple [VInt 2]]
  ∧ tuple_free (tuple_to_list (VTuple [VInt 1; VTuple [VInt 2]])) = true
  ∧ hashable
      (list_to_tuple (tuple_to_list (VTuple [VInt 1; VTuple [VInt 2]])))
    = true.
Proof. apply canonical_round_trip. reflexivity. Defined.

(** The last candidate of the categorical test configuration:
    [[(7, 8), ['9', [10, 11]]]]. *)
Lemma returned_form_is_all_lists_witness :
  let v := VList [VTuple [VInt 7; VInt 8];
                  VList [VStr "9"; VList [VInt 10; VInt 11]]] in
  tuple_to_list (list_to_tuple v) = as_lists v
  ∧ list_to_tuple (as_lists v) = list_to_tuple v.
Proof. apply returned_form_is_all_lists. reflexivity. Defined.

Lemma single_suggestion_is_unseen_witness :
  (∃ pt, pt ∈ product (raw_axes [categorical "a" [VInt 1; VInt 2]])
         ∧ mapM (getitem (run_config {| run_config := {["a" := VInt 2]} |}))
                (name <$> discrete_of [categorical "a" [VInt 1; VInt 2]])
           = Ok pt)
  ∧ (∀ run, run ∈ [{| run_config := {["a" := VInt 1]} |}] →
       mapM (getitem (run_config run))
            (name <$> discrete_of [categorical "a" [VInt 1; VInt 2]])
       ≠ mapM (getitem (run_config {| run_config := {["a" := VInt 2]} |}))
              (name <$> discrete_of [categorical "a" [VInt 1; VInt 2]])).
Proof.
  apply (single_suggestion_is_unseen rt0
           [{| run_config := {["a" := VInt 1]} |}]
           (grid [categorical "a" [VInt 1; VInt 2]]) false).
  - exact rt0_ok.
  - reflexivity.
  - apply (bool_decide_unpack _). vm_compute. exact I.
  - vm_compute. reflexivity.
Defined.

Lemma single_suggestion_needs_every_key_witness :
  ∃ nm', nm' ∈ name <$> discrete_of [categorical "a" [VInt 1; VInt 2]]
         ∧ grid_search_next_run rt0 [{| run_config := ∅ |}]
             (grid [categorical "a" [VInt 1; VInt 2]]) false
           = Raise (KeyError nm').
Proof.
  apply (single_suggestion_needs_every_key rt0 _ _ false _
           {| run_config := ∅ |} "a").
  - reflexivity.
  - reflexivity.
  - repeat constructor.
  - reflexivity.
  - apply list_elem_of_here.
  - apply list_elem_of_here.
  - reflexivity.
Defined.

Lemma next_run_holds_categorical_names_only_witness :
  "a" ∈ name <$> discrete_of
                   [categorical "a" [VInt 1; VInt 2]; constant "c" (VInt 5)].
Proof.
  apply (next_run_holds_categorical_names_only rt0 []
           (grid [categorical "a" [VInt 1; VInt 2]; constant "c" (VInt 5)])
           false _ {| run_config := {["a" := VInt 1]} |} "a").
  - reflexivity.
  - vm_compute. reflexivity.
  - exists (VInt 1). reflexivity.
Defined.
